(** * Iterator lowering of numba: [numba/targets/iterators.py]

    A shallow embedding of the code that [iterators.py] generates for
    [getiter], [enumerate], [zip] and generator [iternext], together with
    the properties of that code.

    The Python functions are code generators: what is modelled is the
    behaviour of the code they emit.  Emitted code is a computation over
    a memory of cells ([builder.load], [builder.store],
    [cgutils.alloca_once]); it either falls through with a value, or
    leaves the enclosing function through
    [call_conv.return_status_propagate]. *)

From stdpp Require Import base numbers option list strings.

Set Warnings "-register-all".
Local Open Scope Z_scope.

(** ** Values and types *)

(** Locations are indices into the memory. *)
Abbreviation loc := nat (only parsing).

(** Values handled by the emitted code. *)
Inductive val :=
| VInt (z : Z)                          (* an integer *)
| VPtr (p : loc)                        (* a pointer to a cell *)
| VTuple (items : list val)             (* cgutils.make_anonymous_struct *)
| VEnumerate (count : loc) (iter : val) (* struct of types.EnumerateType *)
| VZip (items : list val)               (* struct of types.ZipType *)
| VUndef.                               (* a field that was never assigned *)

(** The numba types this file dispatches on.  [ExtIterable] and
    [ExtIterator] stand for the iterables and iterators implemented in
    other modules (ranges, arrays, ...), named by a number. *)
Inductive nbtype :=
| Integer (bitwidth : positive) (signed : bool)
| ExtIterable (k : nat)
| ExtIterator (k : nat)
| EnumerateType (source_type : nbtype)
| ZipType (source_types : list nbtype)
| Generator (g : nat).

(** [types.Kind(types.IteratorType)] *)
Definition is_iterator_type (t : nbtype) : bool :=
  match t with
  | ExtIterator _ | EnumerateType _ | ZipType _ | Generator _ => true
  | Integer _ _ | ExtIterable _ => false
  end.

(** [IterableType.iterator_type] *)
Definition iterator_type (t : nbtype) : nbtype :=
  match t with
  | ExtIterable k => ExtIterator k
  | _ => t
  end.

(** The status returned by a generator's resume function; the three
    flags are the ones [iterators.py] reads. *)
Record status := Status {
  is_ok : bool;
  is_stop_iteration : bool;
  is_error : bool
}.

(** The (value, is_valid) pair behind [_IternextResult]. *)
Definition pair : Type := val * bool.

(** What the lowering context supplies and this file only uses. *)
Class BaseContext := {
  (** width of [types.intp] *)
  intp_bits : positive;
  (** iterators implemented elsewhere: their state, how an iterable
      value is turned into one, and their [iternext] *)
  ext_state : Type;
  ext_getiter : nat -> val -> option ext_state;
  ext_iternext : nat -> ext_state -> pair * ext_state;
  (** generators: their state and [context.get_generator_impl] *)
  gen_state : Type;
  get_generator_impl : nat -> gen_state -> (status * val) * gen_state;
  (** the is_valid bit of a pair helper nobody wrote to yet *)
  fresh_valid : bool
}.

(** What went wrong when no code or no behaviour is defined. *)
Inductive fault := AssertionFailed | IllTyped | BadPointer.

(** A call of [call_iternext] on iterator [it] of type [t]; [inner] are
    the calls made while it ran. *)
Inductive event :=
| IterNext (t : nbtype) (it : val) (inner : list event).

Definition event_target (e : event) : nbtype * val :=
  match e with IterNext t it _ => (t, it) end.

Section Lowering.
Context `{ctx : BaseContext}.

(** ** Machine integers: [types.intp] *)

Definition intp_modulus : Z := 2 ^ Z.pos intp_bits.
Definition intp_max : Z := intp_modulus / 2 - 1.
Definition intp_min : Z := - (intp_modulus / 2).

(** Two's complement reduction to the range of [intp]. *)
Definition intp_wrap (z : Z) : Z :=
  (z + intp_modulus / 2) mod intp_modulus - intp_modulus / 2.

(** [builder.add] on [intp] operands. *)
Definition intp_add (a b : Z) : Z := intp_wrap (a + b).

(** ** Memory and the monad of emitted code *)

Inductive cell :=
| CInt (z : Z)
| CExt (s : ext_state)
| CGen (s : gen_state).

(** The memory: cell [p] is the one pointer [p] points to. *)
Local Abbreviation mem := (list cell) (only parsing).

Inductive outcome (A : Type) :=
| Normal (a : A) (m : mem) (tr : list event)
| Propagated (st : status) (m : mem) (tr : list event)
| Fault (f : fault).
Global Arguments Normal {A} a m tr.
Global Arguments Propagated {A} st m tr.
Global Arguments Fault {A} f.

Definition M (A : Type) : Type := mem -> outcome A.

Definition ret {A} (a : A) : M A := fun m => Normal a m [].

Definition bind {A B} (c : M A) (k : A -> M B) : M B := fun m =>
  match c m with
  | Normal a m1 tr1 =>
      match k a m1 with
      | Normal b m2 tr2 => Normal b m2 (tr1 ++ tr2)
      | Propagated st m2 tr2 => Propagated st m2 (tr1 ++ tr2)
      | Fault f => Fault f
      end
  | Propagated st m1 tr1 => Propagated st m1 tr1
  | Fault f => Fault f
  end.

Definition fail {A} (f : fault) : M A := fun _ => Fault f.

(** [builder.load] *)
Definition load (p : loc) : M cell := fun m =>
  match m !! p with
  | Some c => Normal c m []
  | None => Fault BadPointer
  end.

(** [builder.store] *)
Definition store (c : cell) (p : loc) : M unit := fun m =>
  match m !! p with
  | Some _ => Normal tt (<[p := c]> m) []
  | None => Fault BadPointer
  end.

(** [cgutils.alloca_once]: a new cell; [init] is what it holds before
    the first store. *)
Definition alloca_once (init : cell) : M loc := fun m =>
  Normal (length m) (m ++ [init]) [].

(** [call_conv.return_status_propagate]: the enclosing function returns
    at once with [st]. *)
Definition return_status_propagate {A} (st : status) : M A := fun m =>
  Propagated st m [].

End Lowering.

Abbreviation mem := (list cell) (only parsing).

Declare Scope lower_scope.
Delimit Scope lower_scope with lower.
Notation "x <- c ;; k" := (bind c (fun x => k))
  (at level 20, c at level 99, k at level 200, only parsing) : lower_scope.
Notation "' pat <- c ;; k" := (bind c (fun x => match x with pat => k end))
  (at level 20, pat pattern, c at level 99, k at level 200, only parsing)
  : lower_scope.
Notation "c ;;; k" := (bind c (fun _ => k))
  (at level 100, k at level 200, only parsing, right associativity)
  : lower_scope.
Local Open Scope lower_scope.

Section Iterators.
Context `{ctx : BaseContext}.

Definition load_int (p : loc) : M Z :=
  c <- load p ;;
  match c with
  | CInt z => ret z
  | _ => fail IllTyped
  end.

(** ** [_IternextResult] *)

Definition set_valid (is_valid : bool) (result : pair) : pair :=
  (fst result, is_valid).
Definition set_exhausted (result : pair) : pair := (fst result, false).
Definition yield_ (value : val) (result : pair) : pair := (value, snd result).
Definition is_valid (result : pair) : bool := snd result.
Definition yielded_value (result : pair) : val := fst result.

(** Modelled from the spec: [imputils.iternext_impl], which hands the
    implementation a new pair helper and returns what it left in it. *)
Definition iternext_impl (func : pair -> M pair) : M pair :=
  func (VUndef, fresh_valid).

(** Modelled from the spec: [imputils.impl_ret_borrowed] and
    [imputils.impl_ret_new_ref]; both return the value they are given
    (reference counts are kept by the memory manager, outside this
    model). *)
Definition impl_ret_borrowed (v : val) : M val := ret v.
Definition impl_ret_new_ref (v : val) : M val := ret v.

(** Modelled from the spec: [imputils.call_iternext], given the
    implementation [impl] registered for type [t].  The implementation is
    emitted in line, so a propagated status leaves the caller too. *)
Definition call_iternext_with (t : nbtype) (impl : val -> M pair)
    (it : val) : M pair := fun m =>
  match impl it m with
  | Normal r m' tr => Normal r m' [IterNext t it tr]
  | Propagated st m' tr => Propagated st m' [IterNext t it tr]
  | Fault f => Fault f
  end.

(** ** [getiter] *)

(** [iterator_getiter] *)
Definition iterator_getiter (args : list val) : M val :=
  match args with
  | [it] => impl_ret_borrowed it
  | _ => fail IllTyped
  end.

(** Modelled from the spec: [getiter] of an iterable implemented
    elsewhere makes a new, independently owned iterator. *)
Definition ext_iterable_getiter (k : nat) (v : val) : M val :=
  match ext_getiter k v with
  | Some s => p <- alloca_once (CExt s) ;; ret (VPtr p)
  | None => fail IllTyped
  end.

(** Modelled from the spec: [imputils.call_getiter], the dispatch of
    [getiter] on the type of the value. *)
Definition call_getiter (t : nbtype) (v : val) : M val :=
  if is_iterator_type t then iterator_getiter [v]
  else match t with
       | ExtIterable k => ext_iterable_getiter k v
       | _ => fail IllTyped
       end.

(** ** [enumerate] *)

(** Modelled from the spec: [context.cast] of an integer to [intp]
    (extension keeps the value, truncation reduces it). *)
Definition cast_to_intp (v : val) (fromty : nbtype) : M Z :=
  match fromty, v with
  | Integer _ _, VInt z => ret (intp_wrap z)
  | _, _ => fail IllTyped
  end.

(** [make_enumerate_object]; [sig_args] is [sig.args]. *)
Definition make_enumerate_object (sig_args : list nbtype) (args : list val)
    : M val :=
  match sig_args, args with
  | [srcty], [src] =>
      let start_val := 0 in
      iterobj <- call_getiter srcty src ;;
      countptr <- alloca_once (CInt 0) ;;
      store (CInt start_val) countptr ;;;
      impl_ret_new_ref (VEnumerate countptr iterobj)
  | [srcty; startty], [src; start] =>
      start_val <- cast_to_intp start startty ;;
      iterobj <- call_getiter srcty src ;;
      countptr <- alloca_once (CInt 0) ;;
      store (CInt start_val) countptr ;;;
      impl_ret_new_ref (VEnumerate countptr iterobj)
  | _, _ => fail AssertionFailed
  end.

(** [iternext_enumerate]; [call_source] is
    [call_iternext(context, builder, enumty.source_type, _)]. *)
Definition iternext_enumerate (call_source : val -> M pair) (enum : val)
    (result : pair) : M pair :=
  match enum with
  | VEnumerate enum_count enum_iter =>
      count <- load_int enum_count ;;
      let ncount := intp_add count 1 in
      store (CInt ncount) enum_count ;;;
      srcres <- call_source enum_iter ;;
      let result := set_valid (is_valid srcres) result in
      if is_valid srcres
      then ret (yield_ (VTuple [VInt count; yielded_value srcres]) result)
      else ret result
  | _ => fail IllTyped
  end.

(** ** [zip] *)

(** The loop of [make_zip_object]: [zipobj[i] = call_getiter(...)]. *)
Fixpoint make_zip_loop (i : nat) (srcs : list (val * nbtype))
    (zipobj : list val) : M (list val) :=
  match srcs with
  | [] => ret zipobj
  | (arg, srcty) :: rest =>
      it <- call_getiter srcty arg ;;
      make_zip_loop (S i) rest (<[i := it]> zipobj)
  end.

(** [make_zip_object]; [zip_type] is [sig.return_type]. *)
Definition make_zip_object (zip_type : nbtype) (sig_args : list nbtype)
    (args : list val) : M val :=
  match zip_type with
  | ZipType source_types =>
      if bool_decide (length args = length source_types)
      then
        zipobj <- make_zip_loop 0 (combine args sig_args)
                    (replicate (length source_types) VUndef) ;;
        impl_ret_new_ref (VZip zipobj)
      else fail AssertionFailed
  | _ => fail IllTyped
  end.

(** The loop of [iternext_zip] over [zip(zipobj, zip_type.source_types)];
    each source type comes with its [call_iternext]. *)
Fixpoint iternext_zip_loop (srcs : list (val * (val -> M pair)))
    (valid : bool) (values : list val) : M (bool * list val) :=
  match srcs with
  | [] => ret (valid, values)
  | (iterobj, call_source) :: rest =>
      srcres <- call_source iterobj ;;
      iternext_zip_loop rest (valid && is_valid srcres)
        (values ++ [yielded_value srcres])
  end.

(** [iternext_zip] *)
Definition iternext_zip (call_sources : list (val -> M pair)) (zipobj : val)
    (result : pair) : M pair :=
  match zipobj with
  | VZip items =>
      if bool_decide (length items = 0%nat)
      then ret (set_exhausted result)
      else
        '(valid, values) <-
           iternext_zip_loop (combine items call_sources) true [] ;;
        let result := set_valid valid result in
        if valid then ret (yield_ (VTuple values) result) else ret result
  | _ => fail IllTyped
  end.

(** ** Generators *)

(** The call [impl(context, builder, sig, args)] of the resume function
    on the generator behind pointer [gen]. *)
Definition resume (g : nat) (gen : val) : M (status * val) :=
  match gen with
  | VPtr p =>
      c <- load p ;;
      match c with
      | CGen s =>
          let '(r, s') := get_generator_impl g s in
          store (CGen s') p ;;; ret r
      | _ => fail IllTyped
      end
  | _ => fail IllTyped
  end.

(** The generator [iternext] (the second function named [iternext_zip] in
    the source). *)
Definition iternext_generator (g : nat) (gen : val) (result : pair)
    : M pair :=
  '(status, retval) <- resume g gen ;;
  result <- (if is_ok status
             then ret (yield_ retval (set_valid true result))
             else ret result) ;;
  result <- (if is_stop_iteration status
             then ret (set_exhausted result)
             else ret result) ;;
  (if is_error status && negb (is_stop_iteration status)
   then return_status_propagate status
   else ret tt) ;;;
  ret result.

(** ** Iterators implemented elsewhere *)

(** Modelled from the spec: [iternext] of an opaque iterator; it advances
    its own state and reports a pair, and never fails. *)
Definition iternext_ext (k : nat) (it : val) (result : pair) : M pair :=
  match it with
  | VPtr p =>
      c <- load p ;;
      match c with
      | CExt s =>
          let '(r, s') := ext_iternext k s in
          store (CExt s') p ;;;
          ret (yield_ (yielded_value r) (set_valid (is_valid r) result))
      | _ => fail IllTyped
      end
  | _ => fail IllTyped
  end.

(** ** The [iternext] registered for each type *)

Fixpoint iternext (t : nbtype) (it : val) {struct t} : M pair :=
  match t with
  | ExtIterator k => iternext_impl (iternext_ext k it)
  | EnumerateType source_type =>
      iternext_impl
        (iternext_enumerate
           (call_iternext_with source_type (iternext source_type)) it)
  | ZipType source_types =>
      iternext_impl
        (iternext_zip
           (map (fun srcty => call_iternext_with srcty (iternext srcty))
                source_types) it)
  | Generator g => iternext_impl (iternext_generator g it)
  | Integer _ _ | ExtIterable _ => fail IllTyped
  end.

Definition call_iternext (t : nbtype) (it : val) : M pair :=
  call_iternext_with t (iternext t) it.

End Iterators.

(** ** The loop that drives an iterator *)

Inductive IterationResult :=
| Valid (v : val)
| Exhausted
| PropagatedFailure (st : status).

Section Driver.
Context `{ctx : BaseContext}.

(** How the caller of [call_iternext] sees its outcome. *)
Definition observe (o : outcome pair) : option IterationResult :=
  match o with
  | Normal r _ _ =>
      Some (if is_valid r then Valid (yielded_value r) else Exhausted)
  | Propagated st _ _ => Some (PropagatedFailure st)
  | Fault _ => None
  end.

(** Modelled from the spec: the loop-lowering driver, which calls
    [iternext] until it reports exhaustion or a failure; [fuel] bounds
    the number of calls. *)
Fixpoint iterate (fuel : nat) (t : nbtype) (it : val) (m : mem)
    : list IterationResult :=
  match fuel with
  | O => []
  | S fuel' =>
      match call_iternext t it m with
      | Normal r m' _ =>
          if is_valid r
          then Valid (yielded_value r) :: iterate fuel' t it m'
          else [Exhausted]
      | Propagated st _ _ => [PropagatedFailure st]
      | Fault _ => []
      end
  end.

(** Build an iterator with [build], then drive it: what the loop
    observes, if the construction goes through. *)
Definition drive (build : M val) (t : nbtype) (fuel : nat) (m : mem)
    : option (list IterationResult) :=
  match build m with
  | Normal it m' _ => Some (iterate fuel t it m')
  | Propagated _ _ _ | Fault _ => None
  end.

(** The cells an iterator value of a given type points to. *)
Fixpoint footprint (t : nbtype) (it : val) {struct t} : list loc :=
  match t, it with
  | ExtIterator _, VPtr p => [p]
  | Generator _, VPtr p => [p]
  | EnumerateType source_type, VEnumerate count iter =>
      count :: footprint source_type iter
  | ZipType source_types, VZip items =>
      (fix go (ts : list nbtype) (vs : list val) : list loc :=
         match ts, vs with
         | t' :: ts', v :: vs' => footprint t' v ++ go ts' vs'
         | _, _ => []
         end) source_types items
  | _, _ => []
  end.

Definition footprints (ts : list nbtype) (vs : list val) : list loc :=
  mjoin (zip_with footprint ts vs).

(** Iterator [it] of type [t], run from memory [m], yields the elements
    of [S] in order and then reports exhaustion. *)
Inductive yields (t : nbtype) (it : val) : list val -> mem -> Prop :=
| yields_nil m r m' tr :
    iternext t it m = Normal r m' tr ->
    is_valid r = false ->
    yields t it [] m
| yields_cons m x xs r m' tr :
    iternext t it m = Normal r m' tr ->
    is_valid r = true ->
    yielded_value r = x ->
    yields t it xs m' ->
    yields t it (x :: xs) m.

(** One round over the sources of a zip in which every source returns
    normally: source after source, each run once from the memory the
    previous one left. *)
Inductive zip_round :
    list (val * nbtype) -> mem -> list pair -> mem -> list event -> Prop :=
| zip_round_nil m : zip_round [] m [] m []
| zip_round_cons it t rest m r m1 tr rs m2 trs :
    iternext t it m = Normal r m1 tr ->
    zip_round rest m1 rs m2 trs ->
    zip_round ((it, t) :: rest) m (r :: rs) m2 (IterNext t it tr :: trs).

(** No cell is shared between two of the listed footprints. *)
Fixpoint separate (fps : list (list loc)) : Prop :=
  match fps with
  | [] => True
  | fp :: rest =>
      (forall l, l ∈ fp -> Forall (fun fp' => l ∉ fp') rest) /\ separate rest
  end.

End Driver.

(** ** A context whose iterables are tuples *)

(** Statuses as the calling convention makes them: a stop is an error
    too. *)
Definition ok_status : status := Status true false false.
Definition stop_status : status := Status false true true.
Definition error_status : status := Status false false true.

(** Iterables are [VTuple]s, their iterators hold the items not yet
    yielded; a generator holds the script of what its resume function
    returns, and reports StopIteration once the script is over. *)
Definition seq_context : BaseContext := {|
  intp_bits := 64;
  ext_state := list val;
  ext_getiter := fun _ v =>
    match v with VTuple items => Some items | _ => None end;
  ext_iternext := fun _ s =>
    match s with
    | [] => ((VUndef, false), [])
    | x :: rest => ((x, true), rest)
    end;
  gen_state := list (status * val);
  get_generator_impl := fun _ s =>
    match s with
    | [] => ((stop_status, VUndef), [])
    | r :: rest => (r, rest)
    end;
  fresh_valid := false
|}.

(** The cell of a tuple iterator with [items] left, and of a generator
    with [script] left. *)
Definition seq_cell (items : list val) : @cell seq_context :=
  @CExt seq_context items.
Definition gen_cell (script : list (status * val)) : @cell seq_context :=
  @CGen seq_context script.

(** ** Locality of emitted code *)

Section Locality.
Context `{ctx : BaseContext}.

(** Two memories hold the same cells at the locations in [F]. *)
Definition agree_on (F : list loc) (m1 m2 : mem) : Prop :=
  forall l, l ∈ F -> m1 !! l = m2 !! l.

(** [m'] has the cells of [m] everywhere outside [F], and no cell was
    allocated. *)
Definition unchanged_outside (F : list loc) (m m' : mem) : Prop :=
  length m' = length m /\ forall l, l ∉ F -> m' !! l = m !! l.

(** Same value, same calls, related memories. *)
Definition outcome_rel {A} (R : mem -> mem -> Prop) (o1 o2 : outcome A)
    : Prop :=
  match o1, o2 with
  | Normal a1 m1 tr1, Normal a2 m2 tr2 => a1 = a2 /\ tr1 = tr2 /\ R m1 m2
  | Propagated st1 m1 tr1, Propagated st2 m2 tr2 =>
      st1 = st2 /\ tr1 = tr2 /\ R m1 m2
  | Fault f1, Fault f2 => f1 = f2
  | _, _ => False
  end.

Definition final_mem {A} (o : outcome A) : option mem :=
  match o with
  | Normal _ m _ | Propagated _ m _ => Some m
  | Fault _ => None
  end.

(** A computation that reads and writes only the cells in [F]. *)
Record local {A} (F : list loc) (c : M A) : Prop := {
  local_agree : forall m1 m2,
    agree_on F m1 m2 -> outcome_rel (agree_on F) (c m1) (c m2);
  local_frame : forall m m',
    final_mem (c m) = Some m' -> unchanged_outside F m m'
}.

(** A computation that cannot return normally unless the cells in [F]
    exist. *)
Definition touches {A} (F : list loc) (c : M A) : Prop :=
  forall m a m' tr, c m = Normal a m' tr -> forall l, l ∈ F -> (l < length m)%nat.

End Locality.

(** ** Sources of a zip, each with the sequence it is to yield *)

Definition src_iter (s : val * nbtype * list val) : val := s.1.1.
Definition src_type (s : val * nbtype * list val) : nbtype := s.1.2.
Definition src_items (s : val * nbtype * list val) : list val := s.2.

Definition src_footprint `{ctx : BaseContext} (s : val * nbtype * list val)
    : list loc :=
  footprint (src_type s) (src_iter s).

(** The source once its first element has been taken. *)
Definition src_advance (s : val * nbtype * list val) : val * nbtype * list val :=
  (src_iter s, src_type s, tail (src_items s)).

(** What a round of [zip] leaves behind for a source, given the pair the
    source reported: a source with no element left reported exhaustion,
    any other one yielded its first element and is set to yield the
    rest. *)
Definition round_post `{ctx : BaseContext} (m' : mem)
    (s : val * nbtype * list val) (r : pair) : Prop :=
  match src_items s with
  | [] => is_valid r = false
  | x :: xs =>
      is_valid r = true /\ yielded_value r = x /\
      yields (src_type s) (src_iter s) xs m'
  end.

(** [min(len(S1), ..., len(Sn))] *)
Fixpoint min_len (Ss : list (list val)) : nat :=
  match Ss with
  | [] => 0
  | [S1] => length S1
  | S1 :: rest => Nat.min (length S1) (min_len rest)
  end.

(** The pairs [(s0 + i, S[i])] for [i = 0 .. len(S) - 1]. *)
Definition enumerated (s0 : Z) (S : list val) : list val :=
  imap (fun i x => VTuple [VInt (s0 + Z.of_nat i); x]) S.

(** The same pairs with the index reduced to the range of [intp]. *)
Definition enumerated_intp `{ctx : BaseContext} (s0 : Z) (S : list val)
    : list val :=
  imap (fun i x => VTuple [VInt (intp_wrap (s0 + Z.of_nat i)); x]) S.

(** The tuple of the [i]-th elements of the sequences, in order. *)
Definition nth_tuple (i : nat) (Ss : list (list val)) : val :=
  VTuple ((fun S => nth i S VUndef) <$> Ss).

(** ** Further notions for the combinators *)

Section Further.
Context `{ctx : BaseContext}.

(** The driver loop again, returning also the memory it stops in. *)
Fixpoint drain (fuel : nat) (t : nbtype) (it : val) (m : mem)
    : list IterationResult * mem :=
  match fuel with
  | O => ([], m)
  | S fuel' =>
      match call_iternext t it m with
      | Normal r m' _ =>
          if is_valid r
          then let '(rs, mf) := drain fuel' t it m' in
               (Valid (yielded_value r) :: rs, mf)
          else ([Exhausted], m')
      | Propagated st m' _ => ([PropagatedFailure st], m')
      | Fault _ => ([], m)
      end
  end.

(** The state [s] of an iterator implemented elsewhere makes its
    [iternext] report the elements of [S] and then exhaustion. *)
Inductive ext_yields (k : nat) : ext_state -> list val -> Prop :=
| ext_yields_nil s r s' :
    ext_iternext k s = (r, s') ->
    is_valid r = false ->
    ext_yields k s []
| ext_yields_cons s x xs r s' :
    ext_iternext k s = (r, s') ->
    is_valid r = true ->
    yielded_value r = x ->
    ext_yields k s' xs ->
    ext_yields k s (x :: xs).

(** The state [s] of a generator makes its resume function return the
    elements of [S] with an ok status, and then a stop. *)
Inductive gen_yields (g : nat) : gen_state -> list val -> Prop :=
| gen_yields_nil s st retval s' :
    get_generator_impl g s = ((st, retval), s') ->
    is_stop_iteration st = true ->
    gen_yields g s []
| gen_yields_cons s x xs st s' :
    get_generator_impl g s = ((st, x), s') ->
    is_ok st = true ->
    is_stop_iteration st = false ->
    is_error st = false ->
    gen_yields g s' xs ->
    gen_yields g s (x :: xs).

(** [call_getiter] on argument after argument, each from the memory the
    previous one left: the iterators obtained. *)
Inductive getiter_seq :
    list (val * nbtype) -> mem -> list val -> mem -> list event -> Prop :=
| getiter_seq_nil m : getiter_seq [] m [] m []
| getiter_seq_cons arg srcty rest m it m1 tr its m2 trs :
    call_getiter srcty arg m = Normal it m1 tr ->
    getiter_seq rest m1 its m2 trs ->
    getiter_seq ((arg, srcty) :: rest) m (it :: its) m2 (tr ++ trs).

(** Iterator [it] of type [t], run from memory [m], yields the elements
    of [S] in order and then ends in a propagated failure with status
    [st]. *)
Inductive fails_after (t : nbtype) (it : val)
    : list val -> status -> mem -> Prop :=
| fails_after_nil m st m' tr :
    iternext t it m = Propagated st m' tr ->
    fails_after t it [] st m
| fails_after_cons m x xs st r m' tr :
    iternext t it m = Normal r m' tr ->
    is_valid r = true ->
    yielded_value r = x ->
    fails_after t it xs st m' ->
    fails_after t it (x :: xs) st m.

(** An iterator that, once it has reported exhaustion, reports it again
    on the next call. *)
Definition sticky (t : nbtype) (it : val) : Prop :=
  forall (m : mem) r m' tr,
    iternext t it m = Normal r m' tr ->
    is_valid r = false ->
    exists r' m'' tr',
      iternext t it m' = Normal r' m'' tr' /\ is_valid r' = false.

(** A computation that leaves through [return_status_propagate] only
    with a status satisfying [Q]. *)
Definition propagates_only {A} (Q : status -> Prop) (c : M A) : Prop :=
  forall (m : mem) st m' tr, c m = Propagated st m' tr -> Q st.

(** The status of a failure: an error that is not a stop. *)
Definition failure_status (st : status) : Prop :=
  is_error st = true /\ is_stop_iteration st = false.

(** The sources a zip gets from iterables [(k, v, items)] implemented
    elsewhere when their iterators are allocated one after the other
    from cell [a] on. *)
Fixpoint fresh_sources (a : loc) (inputs : list (nat * val * list val))
    : list (val * nbtype * list val) :=
  match inputs with
  | [] => []
  | (k, _, items) :: rest =>
      (VPtr a, ExtIterator k, items) :: fresh_sources (S a) rest
  end.

End Further.

(** Consecutive elements taken two at a time; an odd last one is left
    out. *)
Fixpoint pair_up (xs : list val) : list val :=
  match xs with
  | x :: y :: rest => VTuple [x; y] :: pair_up rest
  | _ => []
  end.

(** The tuples a zip yields over the sequences [Ss]. *)
Definition zipped (Ss : list (list val)) : list val :=
  (fun i => nth_tuple i Ss) <$> seq 0 (min_len Ss).

(** * The cuRAND generators: [numbapro/cudalib/curand/api.py]

    The classes [RNG], [PRNG] and [QRNG] as functions on the attributes
    of the object.  What the object asks of the binding's [Generator],
    of [_auto_device] and of the device array is recorded, in order, in
    [effects]; failures of the binding itself are outside the model. *)

Module Curand.
Section Api.

(** Floating point arguments are passed on as they are. *)
Variable float : Type.

Inductive exn :=
| TypeError (msg : string)
| AttributeError (attr : string)
| IndexError.

Inductive result (A : Type) :=
| Ok (a : A)
| Raise (e : exn).
Global Arguments Ok {A} a.
Global Arguments Raise {A} e.

(** What the methods read of an array. *)
Record ndarray := Ndarray {
  ndim : nat;
  strides : list Z;
  itemsize : Z;
  size : Z;
  ident : nat
}.

(** [numbapro.cuda._auto_device]: the device array to work on, and
    whether it is a copy to be brought back to the host. *)
Variable auto_device : ndarray -> Z -> ndarray * bool.

Inductive effect :=
| NewGenerator (rndtype : Z)
| SetOffset (offset : Z)
| SetStream (stream : Z)
| SetSeed (seed : Z)
| SetDimensions (ndim : Z)
| AutoDevice (ary : ndarray) (stream : Z)
| GenerateUniform (dary : ndarray) (size : Z)
| GenerateNormal (dary : ndarray) (size : Z) (mean sigma : float)
| GenerateLogNormal (dary : ndarray) (size : Z) (mean sigma : float)
| GeneratePoisson (dary : ndarray) (lmbd : float) (size : Z)
| Generate (dary : ndarray) (size : Z)
| ToHost (dary : ndarray) (stream : Z).

(** The attributes of the object.  [__stream] is assigned by
    [RNG.__init__], so every object has it; an attribute not assigned yet
    is [None]. *)
Record rng := Rng {
  rndtype_attr : option Z;
  stream_attr : Z;
  offset_attr : option Z;
  seed_attr : option Z;
  ndim_attr : option Z;
  effects : list effect
}.

Definition call_gen (e : effect) (self : rng) : rng :=
  Rng (rndtype_attr self) (stream_attr self) (offset_attr self)
      (seed_attr self) (ndim_attr self) (effects self ++ [e]).

Definition getattr (attr : string) (v : option Z) : result Z :=
  match v with
  | Some z => Ok z
  | None => Raise (AttributeError attr)
  end.

(** [RNG.__init__]; [binding.Generator(rndtype)] is made by the caller. *)
Definition RNG_init (gen_effects : list effect) : rng :=
  Rng None 0 None None None gen_effects.

(** [RNG.offset] *)
Definition offset_get (self : rng) : result Z :=
  getattr "_RNG__offset" (offset_attr self).
Definition offset_set (offset : Z) (self : rng) : rng :=
  call_gen (SetOffset offset)
    (Rng (rndtype_attr self) (stream_attr self) (Some offset)
         (seed_attr self) (ndim_attr self) (effects self)).

(** [RNG.stream] *)
Definition stream_get (self : rng) : Z := stream_attr self.
Definition stream_set (stream : Z) (self : rng) : rng :=
  call_gen (SetStream stream)
    (Rng (rndtype_attr self) stream (offset_attr self)
         (seed_attr self) (ndim_attr self) (effects self)).

(** [RNG._require_array] *)
Definition _require_array (ary : ndarray) : result unit :=
  if negb (ndim ary =? 1)%nat
  then Raise (TypeError "Only accept 1-D array")
  else match strides ary !! 0%nat with
       | None => Raise IndexError
       | Some stride0 =>
           if negb (stride0 =? itemsize ary)
           then Raise (TypeError "Only accept unit strided array")
           else Ok tt
       end.

(** [PRNG.seed] *)
Definition seed_get (self : rng) : result Z :=
  getattr "_PRNG__seed" (seed_attr self).
Definition seed_set (seed : Z) (self : rng) : rng :=
  call_gen (SetSeed seed)
    (Rng (rndtype_attr self) (stream_attr self) (offset_attr self)
         (Some seed) (ndim_attr self) (effects self)).

(** [QRNG.ndim], the setter. *)
Definition ndim_set (n : Z) (self : rng) : rng :=
  call_gen (SetDimensions n)
    (Rng (rndtype_attr self) (stream_attr self) (offset_attr self)
         (seed_attr self) (Some n) (effects self)).

Definition set_rndtype (rndtype : Z) (self : rng) : rng :=
  Rng (Some rndtype) (stream_attr self) (offset_attr self)
      (seed_attr self) (ndim_attr self) (effects self).

(** [if x is not None: self.attr = x] *)
Definition if_not_None (x : option Z) (set : Z -> rng -> rng) (self : rng)
    : rng :=
  match x with
  | Some v => set v self
  | None => self
  end.

(** [PRNG.__init__] *)
Definition PRNG_init (rndtype : Z) (seed offset stream : option Z) : rng :=
  let self := RNG_init [NewGenerator rndtype] in
  let self := set_rndtype rndtype self in
  let self := if_not_None seed seed_set self in
  let self := if_not_None offset offset_set self in
  let self := if_not_None stream stream_set self in
  self.

(** [QRNG.__init__] *)
Definition QRNG_init (rndtype : Z) (n offset stream : option Z) : rng :=
  let self := RNG_init [NewGenerator rndtype] in
  let self := set_rndtype rndtype self in
  let self := if_not_None n ndim_set self in
  let self := if_not_None offset offset_set self in
  let self := if_not_None stream stream_set self in
  self.

(** [size or ary.size] *)
Definition size_or (size : option Z) (ary_size : Z) : Z :=
  match size with
  | Some n => if n =? 0 then ary_size else n
  | None => ary_size
  end.

(** The body shared by the generating methods after [_require_array]
    and [size or ary.size]: [_auto_device] with the stream of the object,
    the call [generate] on the binding's generator, and the copy back to
    the host when [_auto_device] made a copy. *)
Definition on_device (generate : ndarray -> effect) (ary : ndarray)
    (self : rng) : result unit * rng :=
  let '(dary, conv) := auto_device ary (stream_get self) in
  let self := call_gen (AutoDevice ary (stream_get self)) self in
  let self := call_gen (generate dary) self in
  if conv
  then (Ok tt, call_gen (ToHost dary (stream_get self)) self)
  else (Ok tt, self).

(** [PRNG.uniform] *)
Definition uniform (ary : ndarray) (size_arg : option Z) (self : rng)
    : result unit * rng :=
  match _require_array ary with
  | Raise e => (Raise e, self)
  | Ok _ =>
      let n := size_or size_arg (size ary) in
      on_device (fun dary => GenerateUniform dary n) ary self
  end.

(** [PRNG.normal] *)
Definition normal (ary : ndarray) (mean sigma : float)
    (size_arg : option Z) (self : rng) : result unit * rng :=
  match _require_array ary with
  | Raise e => (Raise e, self)
  | Ok _ =>
      let n := size_or size_arg (size ary) in
      on_device (fun dary => GenerateNormal dary n mean sigma) ary self
  end.

(** [PRNG.lognormal] *)
Definition lognormal (ary : ndarray) (mean sigma : float)
    (size_arg : option Z) (self : rng) : result unit * rng :=
  match _require_array ary with
  | Raise e => (Raise e, self)
  | Ok _ =>
      let n := size_or size_arg (size ary) in
      on_device (fun dary => GenerateLogNormal dary n mean sigma) ary self
  end.

(** [PRNG.poisson] *)
Definition poisson (ary : ndarray) (lmbd : float)
    (size_arg : option Z) (self : rng) : result unit * rng :=
  match _require_array ary with
  | Raise e => (Raise e, self)
  | Ok _ =>
      let n := size_or size_arg (size ary) in
      on_device (fun dary => GeneratePoisson dary lmbd n) ary self
  end.

(** [QRNG.generate] *)
Definition generate (ary : ndarray) (size_arg : option Z) (self : rng)
    : result unit * rng :=
  match _require_array ary with
  | Raise e => (Raise e, self)
  | Ok _ =>
      let n := size_or size_arg (size ary) in
      on_device (fun dary => Generate dary n) ary self
  end.

(** The configuration of the generator: the attributes without the
    record of effects. *)
Definition config (self : rng)
    : option Z * Z * option Z * option Z * option Z :=
  (rndtype_attr self, stream_attr self, offset_attr self, seed_attr self,
   ndim_attr self).

End Api.
End Curand.

(** ** Properties *)

Section Properties.
Context `{ctx : BaseContext}.

(** *** Machine integers *)

Lemma intp_modulus_half : intp_modulus = 2 * (intp_modulus / 2) /\ 0 < intp_modulus / 2.
Proof.
  unfold intp_modulus.
  replace (Z.pos intp_bits) with (Z.succ (Z.pos intp_bits - 1)) by lia.
  rewrite Z.pow_succ_r by lia.
  rewrite (Z.mul_comm 2), Z.div_mul by lia.
  split; [lia|]. apply Z.pow_pos_nonneg; lia.
Qed.

Lemma intp_wrap_range z : intp_min <= intp_wrap z <= intp_max.
Proof.
  destruct intp_modulus_half as [H1 H2].
  unfold intp_min, intp_max, intp_wrap.
  pose proof (Z.mod_pos_bound (z + intp_modulus / 2) intp_modulus). lia.
Qed.

Lemma intp_wrap_small z : intp_min <= z <= intp_max -> intp_wrap z = z.
Proof.
  destruct intp_modulus_half as [H1 H2].
  unfold intp_min, intp_max, intp_wrap. intros Hz.
  rewrite Z.mod_small by lia. lia.
Qed.

Lemma intp_wrap_add_l a b : intp_wrap (intp_wrap a + b) = intp_wrap (a + b).
Proof.
  unfold intp_wrap.
  replace ((a + intp_modulus / 2) mod intp_modulus - intp_modulus / 2 + b
           + intp_modulus / 2)
    with ((a + intp_modulus / 2) mod intp_modulus + b) by lia.
  rewrite Zplus_mod_idemp_l. do 2 f_equal. lia.
Qed.

Lemma intp_add_wrap s k : intp_add (intp_wrap (s + k)) 1 = intp_wrap (s + (k + 1)).
Proof. unfold intp_add. rewrite intp_wrap_add_l. f_equal. lia. Qed.

(** *** The monad *)

Lemma bind_normal_inv {A B} (c : M A) (k : A -> M B) m b m2 tr :
  bind c k m = Normal b m2 tr ->
  exists a m1 tr1 tr2,
    c m = Normal a m1 tr1 /\ k a m1 = Normal b m2 tr2 /\ tr = tr1 ++ tr2.
Proof.
  unfold bind. destruct (c m) as [a m1 tr1| |]; [|discriminate..].
  destruct (k a m1) as [b' m2' tr2| |] eqn:Hk; [|discriminate..].
  intros [= -> -> <-]. eauto 10.
Qed.

Lemma bind_normal {A B} (c : M A) (k : A -> M B) m a m1 tr1 :
  c m = Normal a m1 tr1 ->
  bind c k m =
    match k a m1 with
    | Normal b m2 tr2 => Normal b m2 (tr1 ++ tr2)
    | Propagated st m2 tr2 => Propagated st m2 (tr1 ++ tr2)
    | Fault f => Fault f
    end.
Proof. unfold bind. now intros ->. Qed.

Lemma bind_propagated {A B} (c : M A) (k : A -> M B) m st m1 tr1 :
  c m = Propagated st m1 tr1 -> bind c k m = Propagated st m1 tr1.
Proof. unfold bind. now intros ->. Qed.

(** *** Locality: the building blocks *)

Lemma agree_on_refl F m : agree_on F m m.
Proof. now intros l _. Qed.

Lemma agree_on_mono (F G : list loc) m1 m2 :
  G ⊆ F -> agree_on F m1 m2 -> agree_on G m1 m2.
Proof. intros HGF H l Hl. apply H, HGF, Hl. Qed.

Lemma unchanged_outside_refl F m : unchanged_outside F m m.
Proof. now split. Qed.

Lemma unchanged_outside_trans F m1 m2 m3 :
  unchanged_outside F m1 m2 -> unchanged_outside F m2 m3 ->
  unchanged_outside F m1 m3.
Proof.
  intros [H1 H2] [H3 H4]. split; [congruence|].
  intros l Hl. rewrite H4, H2; auto.
Qed.

Lemma unchanged_outside_mono (F G : list loc) m m' :
  F ⊆ G -> unchanged_outside F m m' -> unchanged_outside G m m'.
Proof. intros HFG [H1 H2]. split; [done|]. intros l Hl. apply H2. auto. Qed.

Lemma unchanged_outside_agree (F G : list loc) m m' :
  (forall l, l ∈ G -> l ∉ F) -> unchanged_outside F m m' -> agree_on G m m'.
Proof. intros HGF [_ H] l Hl. symmetry. apply H, HGF, Hl. Qed.

Lemma agree_on_extend (F G : list loc) m1 m2 n1 n2 :
  F ⊆ G -> agree_on G m1 m2 -> agree_on F n1 n2 ->
  unchanged_outside F m1 n1 -> unchanged_outside F m2 n2 ->
  agree_on G n1 n2.
Proof.
  intros HFG H12 Hn [_ H1] [_ H2] l Hl.
  destruct (decide (l ∈ F)) as [HFl|HFl]; [by apply Hn|].
  rewrite H1, H2 by done. by apply H12.
Qed.

Lemma local_mono {A} (F G : list loc) (c : M A) :
  F ⊆ G -> local F c -> local G c.
Proof.
  intros HFG [Ha Hf]. split.
  - intros m1 m2 H12.
    assert (HF : agree_on F m1 m2) by (eapply agree_on_mono; eauto).
    specialize (Ha _ _ HF).
    pose proof (Hf m1) as Hf1. pose proof (Hf m2) as Hf2.
    destruct (c m1) as [a1 n1 t1|s1 n1 t1|f1], (c m2) as [a2 n2 t2|s2 n2 t2|f2];
      simpl in *; try done.
    + destruct Ha as (-> & -> & Hn). repeat split.
      eapply agree_on_extend; eauto.
    + destruct Ha as (-> & -> & Hn). repeat split.
      eapply agree_on_extend; eauto.
  - intros m m' H. eapply unchanged_outside_mono; eauto.
Qed.

Lemma local_ret {A} F (a : A) : local F (ret a).
Proof.
  split.
  - intros m1 m2 H. simpl. auto.
  - intros m m' [= <-]. apply unchanged_outside_refl.
Qed.

Lemma local_fail {A} F f : local F (fail (A:=A) f).
Proof. split; [intros m1 m2 _; done | intros m m' [=]]. Qed.

Lemma local_propagate {A} F st : local F (return_status_propagate (A:=A) st).
Proof.
  split.
  - intros m1 m2 H. simpl. auto.
  - intros m m' [= <-]. apply unchanged_outside_refl.
Qed.

Lemma local_load F p : p ∈ F -> local F (load p).
Proof.
  intros Hp. split.
  - intros m1 m2 H. unfold load. rewrite <- (H p Hp).
    destruct (m1 !! p); simpl; auto.
  - intros m m'. unfold load. destruct (m !! p); simpl; [|done].
    intros [= <-]. apply unchanged_outside_refl.
Qed.

Lemma local_store F c p : p ∈ F -> local F (store c p).
Proof.
  intros Hp. split.
  - intros m1 m2 H. unfold store. rewrite <- (H p Hp).
    destruct (m1 !! p) eqn:E1; simpl; [|done].
    repeat split. intros l Hl.
    destruct (decide (p = l)) as [->|Hne].
    + rewrite !list_lookup_insert_eq; [done| |].
      * apply lookup_lt_is_Some. rewrite <- (H l Hl). eauto.
      * apply lookup_lt_is_Some. eauto.
    + rewrite !list_lookup_insert_ne by done. by apply H.
  - intros m m'. unfold store. destruct (m !! p); simpl; [|done].
    intros [= <-]. split; [apply length_insert|].
    intros l Hl. apply list_lookup_insert_ne. congruence.
Qed.

Lemma local_bind {A B} F (c : M A) (k : A -> M B) :
  local F c -> (forall a, local F (k a)) -> local F (bind c k).
Proof.
  intros [Ha Hf] Hk. split.
  - intros m1 m2 H12. specialize (Ha _ _ H12). unfold bind.
    destruct (c m1) as [a1 n1 t1|s1 n1 t1|f1], (c m2) as [a2 n2 t2|s2 n2 t2|f2];
      simpl in *; try done.
    destruct Ha as (-> & -> & Hn).
    pose proof (local_agree _ _ (Hk a2) _ _ Hn) as Hb.
    destruct (k a2 n1) as [b1 o1 u1|r1 o1 u1|g1],
             (k a2 n2) as [b2 o2 u2|r2 o2 u2|g2]; simpl in *; try done.
    + destruct Hb as (-> & -> & Ho). auto.
    + destruct Hb as (-> & -> & Ho). auto.
  - intros m m'. unfold bind. pose proof (Hf m) as Hfm.
    destruct (c m) as [a1 n1 t1|s1 n1 t1|f1]; simpl in *; [| |done].
    + pose proof (local_frame _ _ (Hk a1) n1) as Hkf.
      destruct (k a1 n1) as [b1 o1 u1|r1 o1 u1|g1]; simpl in *; [| |done].
      * intros [= <-]. eapply unchanged_outside_trans; eauto.
      * intros [= <-]. eapply unchanged_outside_trans; eauto.
    + intros [= <-]. auto.
Qed.

Lemma local_call_iternext_with F t (impl : val -> M pair) it :
  local F (impl it) -> local F (call_iternext_with t impl it).
Proof.
  intros [Ha Hf]. split.
  - intros m1 m2 H12. specialize (Ha _ _ H12). unfold call_iternext_with.
    destruct (impl it m1) as [a1 n1 t1|s1 n1 t1|f1],
             (impl it m2) as [a2 n2 t2|s2 n2 t2|f2]; simpl in *; try done.
    + destruct Ha as (-> & -> & Hn). auto.
    + destruct Ha as (-> & -> & Hn). auto.
  - intros m m'. unfold call_iternext_with. specialize (Hf m).
    destruct (impl it m) as [a1 n1 t1|s1 n1 t1|f1]; simpl in *; auto.
Qed.

(** *** Cells that must exist *)

Lemma touches_nil {A} (c : M A) : touches [] c.
Proof. intros m a m' tr _ l Hl. by apply elem_of_nil in Hl. Qed.

Lemma touches_load p : touches [p] (load p).
Proof.
  intros m a m' tr. unfold load. destruct (m !! p) eqn:E; [|done].
  intros _ l ->%list_elem_of_singleton. eapply lookup_lt_Some; eauto.
Qed.

Lemma touches_bind {A B} F G L (c : M A) (k : A -> M B) :
  local L c -> touches F c -> (forall a, touches G (k a)) ->
  touches (F ++ G) (bind c k).
Proof.
  intros Hl Hc Hk m b m2 tr (a & m1 & tr1 & tr2 & H1 & H2 & _)%bind_normal_inv.
  intros l [HF|HG]%elem_of_app.
  - eapply Hc; eauto.
  - destruct (local_frame _ _ Hl m m1) as [Hlen _]; [by rewrite H1|].
    rewrite <- Hlen. eapply Hk; eauto.
Qed.

Lemma touches_call_iternext_with F t (impl : val -> M pair) it :
  touches F (impl it) -> touches F (call_iternext_with t impl it).
Proof.
  intros H m a m' tr. unfold call_iternext_with.
  destruct (impl it m) as [a1 n1 t1|s1 n1 t1|f1] eqn:E; [|done..].
  intros _. eapply H; eauto.
Qed.

Lemma touches_mono {A} (F G : list loc) (c : M A) :
  G ⊆ F -> touches F c -> touches G c.
Proof. intros HGF H m a m' tr Hc l Hl. eapply H; eauto. Qed.

(** *** Induction on types *)

Lemma nbtype_nested_ind (P : nbtype -> Prop) :
  (forall b s, P (Integer b s)) ->
  (forall k, P (ExtIterable k)) ->
  (forall k, P (ExtIterator k)) ->
  (forall t, P t -> P (EnumerateType t)) ->
  (forall ts, Forall P ts -> P (ZipType ts)) ->
  (forall g, P (Generator g)) ->
  forall t, P t.
Proof.
  intros HI HA HB HE HZ HG.
  fix IH 1. intros [b s|k|k|t|ts|g].
  - apply HI.
  - apply HA.
  - apply HB.
  - apply HE, IH.
  - apply HZ. induction ts as [|t ts IHts]; constructor; [apply IH|apply IHts].
  - apply HG.
Qed.

Lemma footprint_zip ts vs : footprint (ZipType ts) (VZip vs) = footprints ts vs.
Proof.
  unfold footprints. simpl. revert vs.
  induction ts as [|t ts IH]; intros [|v vs]; simpl; auto.
  by rewrite IH.
Qed.

Lemma footprints_cons t ts v vs :
  footprints (t :: ts) (v :: vs) = footprint t v ++ footprints ts vs.
Proof. reflexivity. Qed.

Lemma combine_map_r {A B C} (f : B -> C) (l : list A) (k : list B) :
  combine l (map f k) = map (fun p => (p.1, f p.2)) (combine l k).
Proof.
  revert k. induction l as [|a l IH]; intros [|b k]; simpl; auto.
  by rewrite IH.
Qed.

(** *** [iternext] is local to the footprint of its iterator *)

Lemma load_int_local F p : p ∈ F -> local F (load_int p).
Proof.
  intros Hp. apply local_bind; [by apply local_load|].
  intros [z|s|s]; auto using local_ret, local_fail.
Qed.

Lemma iternext_ext_local k it result :
  local (footprint (ExtIterator k) it) (iternext_ext k it result).
Proof.
  destruct it; simpl; try apply local_fail.
  apply local_bind; [apply local_load, list_elem_of_here|].
  intros [z|s|s]; try apply local_fail.
  destruct (ext_iternext k s) as [r s'].
  apply local_bind; [apply local_store, list_elem_of_here|].
  intros _. apply local_ret.
Qed.

Lemma resume_local g it : local (footprint (Generator g) it) (resume g it).
Proof.
  destruct it; simpl; try apply local_fail.
  apply local_bind; [apply local_load, list_elem_of_here|].
  intros [z|s|s]; try apply local_fail.
  destruct (get_generator_impl g s) as [r s'].
  apply local_bind; [apply local_store, list_elem_of_here|].
  intros _. apply local_ret.
Qed.

Lemma iternext_generator_local g it result :
  local (footprint (Generator g) it) (iternext_generator g it result).
Proof.
  unfold iternext_generator.
  apply local_bind; [apply resume_local|]. intros [st retval].
  apply local_bind; [destruct (is_ok st); apply local_ret|]. intros r1.
  apply local_bind; [destruct (is_stop_iteration st); apply local_ret|].
  intros r2.
  apply local_bind; [|intros _; apply local_ret].
  destruct (is_error st && negb (is_stop_iteration st));
    [apply local_propagate | apply local_ret].
Qed.

Lemma iternext_enumerate_local t call enum result :
  (forall it, local (footprint t it) (call it)) ->
  local (footprint (EnumerateType t) enum) (iternext_enumerate call enum result).
Proof.
  intros Hcall. destruct enum as [| | |c it| |]; simpl; try apply local_fail.
  apply local_bind; [apply load_int_local, list_elem_of_here|]. intros count.
  apply local_bind; [apply local_store, list_elem_of_here|]. intros _.
  apply local_bind.
  - eapply local_mono; [|apply Hcall]. by apply list_subseteq_cons.
  - intros srcres. destruct (is_valid srcres); apply local_ret.
Qed.

Lemma iternext_zip_loop_local ts :
  Forall (fun t => forall it, local (footprint t it) (iternext t it)) ts ->
  forall vs valid values,
    local (footprints ts vs)
      (iternext_zip_loop
         (combine vs (map (fun t => call_iternext_with t (iternext t)) ts))
         valid values).
Proof.
  induction 1 as [|t ts Ht _ IH]; intros [|v vs] valid values; simpl;
    try apply local_ret.
  rewrite footprints_cons. apply local_bind.
  - apply local_call_iternext_with.
    eapply local_mono; [|apply Ht]. by apply list_subseteq_app_l.
  - intros srcres. eapply local_mono; [|apply IH]. by apply list_subseteq_app_r.
Qed.

Lemma iternext_local t : forall it, local (footprint t it) (iternext t it).
Proof.
  induction t as [b s|k|k|t IH|ts IH|g] using nbtype_nested_ind; intros it.
  - apply local_fail.
  - apply local_fail.
  - apply iternext_ext_local.
  - apply iternext_enumerate_local. intros it'.
    by apply local_call_iternext_with.
  - simpl iternext. unfold iternext_impl, iternext_zip.
    destruct it as [| | | |vs|]; try apply local_fail.
    rewrite footprint_zip. case_bool_decide; [apply local_ret|].
    apply local_bind; [by apply iternext_zip_loop_local|].
    intros [valid values]. destruct valid; apply local_ret.
  - apply iternext_generator_local.
Qed.

Lemma call_iternext_local t it : local (footprint t it) (call_iternext t it).
Proof. apply local_call_iternext_with, iternext_local. Qed.

(** *** [iternext] returns normally only if its footprint is allocated *)

Lemma touches_bind_l {A B} F (c : M A) (k : A -> M B) :
  touches F c -> touches F (bind c k).
Proof.
  intros Hc m b m2 tr (a & m1 & tr1 & tr2 & H1 & H2 & _)%bind_normal_inv.
  eapply Hc; eauto.
Qed.

Lemma touches_bind_r {A B} G L (c : M A) (k : A -> M B) :
  local L c -> (forall a, touches G (k a)) -> touches G (bind c k).
Proof.
  intros Hl Hk m b m2 tr (a & m1 & tr1 & tr2 & H1 & H2 & _)%bind_normal_inv.
  intros l HG.
  destruct (local_frame _ _ Hl m m1) as [Hlen _]; [by rewrite H1|].
  rewrite <- Hlen. eapply Hk; eauto.
Qed.

Lemma touches_deref {A} p (k : cell -> M A) : touches [p] (bind (load p) k).
Proof. apply touches_bind_l, touches_load. Qed.

Lemma iternext_zip_loop_touches ts :
  Forall (fun t => forall it, touches (footprint t it) (iternext t it)) ts ->
  forall vs valid values,
    touches (footprints ts vs)
      (iternext_zip_loop
         (combine vs (map (fun t => call_iternext_with t (iternext t)) ts))
         valid values).
Proof.
  induction 1 as [|t ts Ht _ IH]; intros [|v vs] valid values; simpl;
    try apply touches_nil.
  rewrite footprints_cons. eapply touches_bind.
  - apply (call_iternext_local t v).
  - by apply touches_call_iternext_with.
  - intros srcres. apply IH.
Qed.

Lemma iternext_touches t : forall it, touches (footprint t it) (iternext t it).
Proof.
  induction t as [b s|k|k|t IH|ts IH|g] using nbtype_nested_ind; intros it.
  - apply touches_nil.
  - apply touches_nil.
  - destruct it; try apply touches_nil. apply touches_deref.
  - destruct it as [| | |c it| |]; try apply touches_nil.
    simpl. unfold iternext_impl, iternext_enumerate.
    apply (touches_bind [c] (footprint t it) [c]).
    + by apply load_int_local, list_elem_of_here.
    + apply touches_deref.
    + intros count. eapply (touches_bind_r _ [c]).
      * apply local_store, list_elem_of_here.
      * intros _. apply touches_bind_l.
        by apply touches_call_iternext_with.
  - destruct it as [| | | |vs|]; try apply touches_nil.
    rewrite footprint_zip. simpl iternext. unfold iternext_impl, iternext_zip.
    case_bool_decide as Hvs.
    + destruct vs; [|done]. destruct ts; apply touches_nil.
    + apply touches_bind_l. by apply iternext_zip_loop_touches.
  - destruct it; try apply touches_nil.
    simpl. unfold iternext_impl, iternext_generator, resume.
    apply touches_bind_l, touches_deref.
Qed.

(** *** [yields] depends on the footprint only *)

Lemma yields_agree t it xs m1 :
  yields t it xs m1 ->
  forall m2, agree_on (footprint t it) m1 m2 -> yields t it xs m2.
Proof.
  induction 1 as [m1 r m1' tr Hrun Hv|m1 x xs r m1' tr Hrun Hv Hx _ IH];
    intros m2 H12.
  - pose proof (local_agree _ _ (iternext_local t it) _ _ H12) as Hrel.
    rewrite Hrun in Hrel.
    destruct (iternext t it m2) as [r2 m2' tr2| |] eqn:Hrun2; try done.
    destruct Hrel as (<- & _ & _). by eapply yields_nil.
  - pose proof (local_agree _ _ (iternext_local t it) _ _ H12) as Hrel.
    rewrite Hrun in Hrel.
    destruct (iternext t it m2) as [r2 m2' tr2| |] eqn:Hrun2; try done.
    destruct Hrel as (<- & _ & Hagree). eapply yields_cons; eauto.
Qed.

Lemma yields_allocated t it xs m :
  yields t it xs m -> forall l, l ∈ footprint t it -> (l < length m)%nat.
Proof. intros [? ? ? ? Hrun|? ? ? ? ? ? Hrun]; eapply iternext_touches; eauto. Qed.

(** *** One step of [enumerate] *)

Lemma call_iternext_unfold t it m :
  call_iternext t it m =
    match iternext t it m with
    | Normal r m' tr => Normal r m' [IterNext t it tr]
    | Propagated st m' tr => Propagated st m' [IterNext t it tr]
    | Fault f => Fault f
    end.
Proof. reflexivity. Qed.

Lemma iternext_enumerate_step t c it (m : mem) n :
  m !! c = Some (CInt n) ->
  iternext (EnumerateType t) (VEnumerate c it) m =
    match call_iternext t it (<[c := CInt (intp_add n 1)]> m) with
    | Normal srcres m' tr =>
        Normal (if is_valid srcres
                then (VTuple [VInt n; yielded_value srcres], true)
                else (VUndef, false)) m' tr
    | Propagated st m' tr => Propagated st m' tr
    | Fault f => Fault f
    end.
Proof.
  intros Hc. simpl iternext.
  unfold iternext_impl, iternext_enumerate, load_int, bind, load, store, ret.
  rewrite Hc. simpl. rewrite Hc.
  fold (call_iternext t it).
  destruct (call_iternext t it (<[c:=CInt (intp_add n 1)]> m))
    as [[v b] m' tr|st m' tr|f]; [|done..].
  unfold is_valid, yielded_value, set_valid, yield_. simpl.
  destruct b; simpl; by rewrite app_nil_r.
Qed.

Lemma enumerate_iterate t it xs s :
  forall (m : mem) c k fuel,
    yields t it xs m ->
    c ∉ footprint t it ->
    m !! c = Some (CInt (intp_wrap (s + Z.of_nat k))) ->
    (length xs < fuel)%nat ->
    iterate fuel (EnumerateType t) (VEnumerate c it) m =
      imap (fun i x =>
              Valid (VTuple [VInt (intp_wrap (s + Z.of_nat (k + i))); x])) xs
      ++ [Exhausted].
Proof.
  induction xs as [|x xs IH]; intros m c k fuel Hy Hc Hm Hfuel;
    (destruct fuel as [|fuel]; [simpl in Hfuel; lia|]).
  - simpl. rewrite call_iternext_unfold, (iternext_enumerate_step _ _ _ _ _ Hm).
    assert (Hy2 : yields t it [] (<[c:=CInt (intp_add (intp_wrap (s + Z.of_nat k)) 1)]> m)).
    { eapply yields_agree; [exact Hy|]. intros l Hl.
      rewrite list_lookup_insert_ne; [done|]. intros ->. done. }
    inversion Hy2 as [m0 r m' tr Hrun Hv|]; subst.
    rewrite call_iternext_unfold, Hrun, Hv. simpl. done.
  - simpl. rewrite call_iternext_unfold, (iternext_enumerate_step _ _ _ _ _ Hm).
    assert (Hy2 : yields t it (x :: xs)
                    (<[c:=CInt (intp_add (intp_wrap (s + Z.of_nat k)) 1)]> m)).
    { eapply yields_agree; [exact Hy|]. intros l Hl.
      rewrite list_lookup_insert_ne; [done|]. intros ->. done. }
    inversion Hy2 as [|m0 x0 xs0 r m' tr Hrun Hv Hx Hrest]; subst.
    rewrite call_iternext_unfold, Hrun, Hv. simpl.
    rewrite Nat.add_0_r. f_equal.
    rewrite (IH m' c (S k)); [| done | done | | simpl in Hfuel; lia].
    + f_equal. apply imap_ext. intros i y _. simpl.
      by rewrite Nat.add_succ_r.
    + destruct (local_frame _ _ (iternext_local t it)
                  (<[c:=CInt (intp_add (intp_wrap (s + Z.of_nat k)) 1)]> m) m')
        as [_ Hout]; [by rewrite Hrun|].
      rewrite Hout by done.
      rewrite list_lookup_insert_eq by (eapply lookup_lt_Some; eauto).
      rewrite intp_add_wrap. do 3 f_equal. lia.
Qed.

Lemma bind_ret_l {A B} (a : A) (k : A -> M B) m : bind (ret a) k m = k a m.
Proof. unfold bind, ret. by destruct (k a m). Qed.

Lemma intp_wrap_0 : intp_wrap 0 = 0.
Proof.
  apply intp_wrap_small. destruct intp_modulus_half as [H1 H2].
  unfold intp_min, intp_max. lia.
Qed.

Lemma make_enumerate_object_start srcty src b sg s0 (m m1 : mem) it tr :
  call_getiter srcty src m = Normal it m1 tr ->
  make_enumerate_object [srcty; Integer b sg] [src; VInt s0] m =
    Normal (VEnumerate (length m1) it) (m1 ++ [CInt (intp_wrap s0)]) tr.
Proof.
  intros Hget. unfold make_enumerate_object, cast_to_intp.
  rewrite bind_ret_l. rewrite (bind_normal _ _ _ _ _ _ Hget).
  unfold bind, alloca_once, store, impl_ret_new_ref, ret.
  rewrite lookup_app_r by done. rewrite Nat.sub_diag. simpl.
  rewrite insert_app_r_alt by done. rewrite Nat.sub_diag. simpl.
  by rewrite app_nil_r.
Qed.

(** *** One step of a generator *)

Lemma iternext_generator_step g p (m : mem) s st retval s' :
  m !! p = Some (CGen s) ->
  get_generator_impl g s = ((st, retval), s') ->
  iternext (Generator g) (VPtr p) m =
    if is_error st && negb (is_stop_iteration st)
    then Propagated st (<[p := CGen s']> m) []
    else Normal (if is_ok st then retval else VUndef,
                 if is_stop_iteration st then false
                 else if is_ok st then true else fresh_valid)
           (<[p := CGen s']> m) [].
Proof.
  intros Hp Himpl. simpl iternext.
  unfold iternext_impl, iternext_generator, resume, bind, load, store, ret,
    return_status_propagate.
  rewrite Hp, Himpl. simpl. rewrite Hp. simpl.
  destruct (is_ok st), (is_stop_iteration st), (is_error st); reflexivity.
Qed.

(** *** One round of [zip] *)

Lemma iternext_zip_loop_round srcs (m : mem) rs m' tr :
  zip_round srcs m rs m' tr ->
  forall valid values,
    iternext_zip_loop
      (map (fun p => (p.1, call_iternext_with p.2 (iternext p.2))) srcs)
      valid values m =
    Normal (valid && forallb is_valid rs, values ++ (yielded_value <$> rs)) m' tr.
Proof.
  induction 1 as [m|it t rest m r m1 tr rs m2 trs Hrun _ IH];
    intros valid values; simpl.
  - unfold ret. by rewrite andb_true_r, app_nil_r.
  - erewrite bind_normal;
      [|unfold call_iternext_with; simpl; rewrite Hrun; reflexivity].
    rewrite IH. simpl. by rewrite andb_assoc, <- app_assoc.
Qed.

Lemma iternext_zip_loop_propagated pre (m : mem) rs m1 tr1 it t st m2 tr2 post :
  zip_round pre m rs m1 tr1 ->
  iternext t it m1 = Propagated st m2 tr2 ->
  forall valid values,
    iternext_zip_loop
      (map (fun p => (p.1, call_iternext_with p.2 (iternext p.2)))
           (pre ++ (it, t) :: post))
      valid values m =
    Propagated st m2 (tr1 ++ [IterNext t it tr2]).
Proof.
  intros Hpre Hfail.
  induction Hpre as [m|it0 t0 rest m r m1 tr rs m3 trs Hrun _ IH];
    intros valid values; simpl.
  - apply bind_propagated. unfold call_iternext_with. simpl. by rewrite Hfail.
  - erewrite bind_normal;
      [|unfold call_iternext_with; simpl; rewrite Hrun; reflexivity].
    by rewrite (IH Hfail).
Qed.

Lemma iternext_zip_unfold ts its (m : mem) :
  its <> [] ->
  iternext (ZipType ts) (VZip its) m =
    match iternext_zip_loop
            (map (fun p => (p.1, call_iternext_with p.2 (iternext p.2)))
                 (combine its ts)) true [] m with
    | Normal (valid, values) m' tr =>
        Normal (if valid then (VTuple values, true) else (VUndef, false)) m' tr
    | Propagated st m' tr => Propagated st m' tr
    | Fault f => Fault f
    end.
Proof.
  intros Hne. simpl iternext. unfold iternext_impl, iternext_zip.
  rewrite bool_decide_eq_false_2 by (by destruct its).
  rewrite combine_map_r. unfold bind.
  destruct (iternext_zip_loop _ true [] m) as [[valid values] m' tr| |];
    [|done..].
  destruct valid; unfold ret, set_valid, yield_; simpl; by rewrite app_nil_r.
Qed.

Lemma iternext_zip_round ts its (m : mem) rs m' tr :
  its <> [] ->
  zip_round (combine its ts) m rs m' tr ->
  iternext (ZipType ts) (VZip its) m =
    Normal (if forallb is_valid rs
            then (VTuple (yielded_value <$> rs), true)
            else (VUndef, false)) m' tr.
Proof.
  intros Hne Hround. rewrite iternext_zip_unfold by done.
  by rewrite (iternext_zip_loop_round _ _ _ _ _ Hround).
Qed.

Lemma zip_round_targets srcs (m : mem) rs m' tr :
  zip_round srcs m rs m' tr ->
  event_target <$> tr = (fun p => (p.2, p.1)) <$> srcs /\
  length rs = length srcs.
Proof.
  induction 1 as [|it t rest m r m1 tr rs m2 trs _ _ [IH1 IH2]]; [done|].
  split; [rewrite !fmap_cons; by rewrite IH1 | simpl; by rewrite IH2].
Qed.

Lemma iternext_zip_loop_normal_inv srcs :
  forall (m : mem) valid values v vals m' tr,
    iternext_zip_loop
      (map (fun p => (p.1, call_iternext_with p.2 (iternext p.2))) srcs)
      valid values m = Normal (v, vals) m' tr ->
    exists rs,
      zip_round srcs m rs m' tr /\
      v = valid && forallb is_valid rs /\
      vals = values ++ (yielded_value <$> rs).
Proof.
  induction srcs as [|[it t] srcs IH]; intros m valid values v vals m' tr; simpl.
  - intros [= <- <- <- <-]. exists [].
    repeat split; [constructor|by rewrite andb_true_r|by rewrite app_nil_r].
  - intros (r & m1 & tr1 & tr2 & Hcall & Hrest & ->)%bind_normal_inv.
    unfold call_iternext_with in Hcall.
    destruct (iternext t it m) as [r0 m0 tr0| |] eqn:Hrun; [|done..].
    injection Hcall as -> -> <-.
    destruct (IH _ _ _ _ _ _ _ Hrest) as (rs & Hround & -> & ->).
    exists (r :: rs). split; [by econstructor|].
    rewrite fmap_cons. simpl. by rewrite andb_assoc, <- app_assoc.
Qed.

Lemma iternext_zip_normal_inv ts its (m : mem) r m' tr :
  its <> [] ->
  iternext (ZipType ts) (VZip its) m = Normal r m' tr ->
  exists rs,
    zip_round (combine its ts) m rs m' tr /\
    r = if forallb is_valid rs
        then (VTuple (yielded_value <$> rs), true)
        else (VUndef, false).
Proof.
  intros Hne. rewrite iternext_zip_unfold by done.
  destruct (iternext_zip_loop _ true [] m) as [[valid values] m0 tr0| |] eqn:Hloop;
    [|done..].
  intros [= <- <- <-].
  destruct (iternext_zip_loop_normal_inv _ _ _ _ _ _ _ _ Hloop)
    as (rs & Hround & -> & ->).
  exists rs. split; [done|]. done.
Qed.

(** *** Rounds of [zip] over sources that are sequences *)

Lemma round_post_agree (m1 m2 : mem) s r :
  agree_on (src_footprint s) m1 m2 -> round_post m1 s r -> round_post m2 s r.
Proof.
  unfold round_post. destruct (src_items s); [done|].
  intros H (? & ? & Hy). repeat split; try done. by eapply yields_agree.
Qed.

Lemma separate_head fp fps l :
  separate (fp :: fps) -> l ∈ mjoin fps -> l ∉ fp.
Proof.
  intros [Hsep _] (fp' & Hl & Hfp')%list_elem_of_join Hfp.
  specialize (Hsep l Hfp). rewrite Forall_forall in Hsep.
  exact (Hsep fp' Hfp' Hl).
Qed.

Lemma zip_round_of_yields srcs :
  forall m : mem,
    separate (src_footprint <$> srcs) ->
    Forall (fun s => yields (src_type s) (src_iter s) (src_items s) m) srcs ->
    exists rs m' tr,
      zip_round ((fun s => (src_iter s, src_type s)) <$> srcs) m rs m' tr /\
      Forall2 (round_post m') srcs rs /\
      unchanged_outside (mjoin (src_footprint <$> srcs)) m m'.
Proof.
  induction srcs as [|s srcs IH]; intros m Hsep Hall.
  - exists [], m, []. repeat split; constructor.
  - apply Forall_cons in Hall as [Hs Hrest].
    assert (exists r m1 tr,
              iternext (src_type s) (src_iter s) m = Normal r m1 tr /\
              round_post m1 s r) as (r & m1 & tr & Hrun & Hr).
    { unfold round_post. remember (src_items s) as items eqn:Hitems.
      destruct Hs as [m r m1 tr Hrun Hv|m x xs r m1 tr Hrun Hv Hx Hy];
        exists r, m1, tr; auto. }
    assert (Hframe : unchanged_outside (src_footprint s) m m1).
    { apply (local_frame _ _ (iternext_local (src_type s) (src_iter s)) m).
      by rewrite Hrun. }
    destruct (IH m1) as (rs & m' & trs & Hround & Hposts & Hframe').
    { apply Hsep. }
    { rewrite Forall_forall in Hrest. apply Forall_forall.
      intros s' Hs'. eapply yields_agree; [by apply Hrest|].
      eapply unchanged_outside_agree; [|exact Hframe].
      intros l Hl. eapply separate_head; [exact Hsep|].
      apply list_elem_of_join. exists (src_footprint s'). split; [done|].
      by apply list_elem_of_fmap_2. }
    exists (r :: rs), m', (IterNext (src_type s) (src_iter s) tr :: trs).
    split; [|split].
    + rewrite fmap_cons. by econstructor.
    + constructor; [|done].
      eapply round_post_agree; [|exact Hr].
      eapply unchanged_outside_agree; [|exact Hframe'].
      intros l Hl Hl'. by eapply separate_head.
    + rewrite fmap_cons. simpl.
      eapply unchanged_outside_trans.
      * eapply unchanged_outside_mono; [|exact Hframe].
        by apply list_subseteq_app_l.
      * eapply unchanged_outside_mono; [|exact Hframe'].
        by apply list_subseteq_app_r.
Qed.

Lemma min_len_exhausted Ss : [] ∈ Ss -> min_len Ss = 0%nat.
Proof.
  induction Ss as [|S1 Ss IH]; [by intros ?%elem_of_nil|].
  intros [<-|Hin]%elem_of_cons.
  - by destruct Ss.
  - simpl. rewrite (IH Hin). destruct Ss; [by apply elem_of_nil in Hin|].
    apply Nat.min_0_r.
Qed.

Lemma min_len_tail Ss :
  Ss <> [] -> Forall (fun S => S <> []) Ss ->
  min_len Ss = S (min_len (tail <$> Ss)).
Proof.
  induction Ss as [|S1 Ss IH]; [done|]. intros _ [H1 Hall]%Forall_cons.
  destruct S1 as [|x S1]; [done|].
  destruct Ss as [|S2 Ss]; [done|].
  change (min_len ((x :: S1) :: S2 :: Ss))
    with (Nat.min (length (x :: S1)) (min_len (S2 :: Ss))).
  rewrite IH by done.
  change (min_len (tail <$> (x :: S1) :: S2 :: Ss))
    with (Nat.min (length S1) (min_len (tail <$> S2 :: Ss))).
  simpl length. lia.
Qed.

Lemma nth_tuple_tail i Ss : nth_tuple (S i) Ss = nth_tuple i (tail <$> Ss).
Proof.
  unfold nth_tuple. f_equal. rewrite <- list_fmap_compose.
  apply list_fmap_ext. intros _ [|x xs] _; simpl; [by destruct i|done].
Qed.

Lemma combine_fmap {A B C} (f : A -> B) (g : A -> C) (l : list A) :
  combine (f <$> l) (g <$> l) = (fun x => (f x, g x)) <$> l.
Proof. induction l as [|a l IH]; [done|]. rewrite !fmap_cons. simpl. by rewrite IH. Qed.

Lemma round_post_valid (m' : mem) srcs rs :
  Forall2 (round_post m') srcs rs ->
  forallb is_valid rs = true ->
  Forall (fun s => src_items s <> []) srcs /\
  yielded_value <$> rs = (fun S => nth 0 S VUndef) <$> (src_items <$> srcs) /\
  Forall (fun s => yields (src_type s) (src_iter s) (src_items s) m')
         (src_advance <$> srcs).
Proof.
  induction 1 as [|s r srcs rs Hsr _ IH]; [by repeat constructor|].
  cbn [forallb]. intros [Hr Hrs]%andb_true_iff.
  destruct (IH Hrs) as (IH1 & IH2 & IH3).
  unfold round_post in Hsr. rewrite !fmap_cons.
  destruct (src_items s) as [|x xs] eqn:Hitems; [congruence|].
  destruct Hsr as (_ & Hx & Hy).
  split; [|split].
  - constructor; [congruence|done].
  - simpl. by rewrite Hx, IH2.
  - constructor; [|done]. unfold src_advance, src_items, src_type, src_iter in *.
    simpl. by rewrite Hitems.
Qed.

Lemma round_post_exhausted (m' : mem) srcs rs :
  Forall2 (round_post m') srcs rs ->
  forallb is_valid rs = false ->
  [] ∈ src_items <$> srcs.
Proof.
  induction 1 as [|s r srcs rs Hsr _ IH]; [done|].
  cbn [forallb]. intros [Hr|Hrs]%andb_false_iff; rewrite fmap_cons.
  - unfold round_post in Hsr. destruct (src_items s) as [|x xs].
    + apply list_elem_of_here.
    + destruct Hsr. congruence.
  - apply list_elem_of_further. auto.
Qed.

Lemma zip_iterate fuel :
  forall srcs (m : mem),
    srcs <> [] ->
    separate (src_footprint <$> srcs) ->
    Forall (fun s => yields (src_type s) (src_iter s) (src_items s) m) srcs ->
    (min_len (src_items <$> srcs) < fuel)%nat ->
    iterate fuel (ZipType (src_type <$> srcs)) (VZip (src_iter <$> srcs)) m =
      ((fun i => Valid (nth_tuple i (src_items <$> srcs)))
         <$> seq 0 (min_len (src_items <$> srcs)))
      ++ [Exhausted].
Proof.
  induction fuel as [|fuel IH]; intros srcs m Hne Hsep Hall Hfuel; [lia|].
  destruct (zip_round_of_yields srcs m Hsep Hall)
    as (rs & m' & tr & Hround & Hposts & _).
  simpl iterate. rewrite call_iternext_unfold.
  rewrite (iternext_zip_round _ _ m rs m' tr);
    [|by destruct srcs|by rewrite combine_fmap].
  destruct (forallb is_valid rs) eqn:Hvalid; simpl.
  - destruct (round_post_valid _ _ _ Hposts Hvalid) as (Hnonempty & Hheads & Hnext).
    assert (Hmin : min_len (src_items <$> srcs)
                   = S (min_len (tail <$> (src_items <$> srcs)))).
    { apply min_len_tail; [by destruct srcs|by apply Forall_fmap]. }
    assert (Htypes : src_type <$> srcs = src_type <$> (src_advance <$> srcs))
      by (by rewrite <- list_fmap_compose).
    assert (Hiters : src_iter <$> srcs = src_iter <$> (src_advance <$> srcs))
      by (by rewrite <- list_fmap_compose).
    assert (Hitems : src_items <$> (src_advance <$> srcs)
                     = tail <$> (src_items <$> srcs))
      by (by rewrite <- !list_fmap_compose).
    rewrite Htypes, Hiters.
    rewrite (IH (src_advance <$> srcs) m').
    + rewrite Hitems, Hmin. cbn [seq]. rewrite fmap_cons.
      rewrite <- app_comm_cons. f_equal.
      * unfold nth_tuple. by rewrite Hheads.
      * f_equal. rewrite <- (fmap_S_seq 0), <- (list_fmap_compose S).
        apply list_fmap_ext. intros _ i _. simpl.
        by rewrite nth_tuple_tail.
    + by destruct srcs.
    + by rewrite <- list_fmap_compose.
    + done.
    + rewrite Hitems. lia.
  - by rewrite (min_len_exhausted _ (round_post_exhausted _ _ _ Hposts Hvalid)).
Qed.

(** *** The indexed combinator *)

Lemma enumerated_intp_exact s0 xs :
  intp_min <= s0 -> s0 + Z.of_nat (length xs) - 1 <= intp_max ->
  enumerated_intp s0 xs = enumerated s0 xs.
Proof.
  intros Hlo Hhi. unfold enumerated_intp, enumerated.
  apply imap_ext. intros i x Hi%lookup_lt_Some.
  rewrite intp_wrap_small; [done|lia].
Qed.

(** C1 (amended): for every source sequence [xs] and starting integer
    [s0], the enumerate object built by [make_enumerate_object] over a
    source that yields [xs] is driven to the pairs [(c_i, xs[i])],
    [i = 0 .. len(xs) - 1], in order, followed by Exhausted, where [c_i]
    is [s0 + i] reduced to the range of [intp] by two's complement
    wrap-around; [c_i] is [s0 + i] itself whenever [s0] and
    [s0 + len(xs) - 1] lie in that range. *)
Theorem enumerate_yields_indexed_pairs
    srcty src b sg s0 xs (m m1 : mem) it tr :
  call_getiter srcty src m = Normal it m1 tr ->
  yields (iterator_type srcty) it xs m1 ->
  exists enum m2 tr2,
    make_enumerate_object [srcty; Integer b sg] [src; VInt s0] m
      = Normal enum m2 tr2 /\
    (forall fuel, (length xs < fuel)%nat ->
       iterate fuel (EnumerateType (iterator_type srcty)) enum m2
         = (Valid <$> enumerated_intp s0 xs) ++ [Exhausted]) /\
    (intp_min <= s0 -> s0 + Z.of_nat (length xs) - 1 <= intp_max ->
       enumerated_intp s0 xs = enumerated s0 xs).
Proof.
  intros Hget Hy.
  exists (VEnumerate (length m1) it), (m1 ++ [CInt (intp_wrap s0)]), tr.
  split; [by apply make_enumerate_object_start|].
  split; [|apply enumerated_intp_exact].
  intros fuel Hfuel.
  assert (Hfresh : length m1 ∉ footprint (iterator_type srcty) it).
  { intros Hin. pose proof (yields_allocated _ _ _ _ Hy _ Hin). lia. }
  rewrite (enumerate_iterate _ _ xs s0 _ _ 0%nat); try done.
  - f_equal. unfold enumerated_intp. rewrite fmap_imap. done.
  - eapply yields_agree; [exact Hy|]. intros l Hl.
    symmetry. apply lookup_app_l. by eapply yields_allocated.
  - rewrite lookup_app_r by done. rewrite Nat.sub_diag. simpl.
    by rewrite Z.add_0_r.
Qed.

(** C6: on every [iternext] of an enumerate object whose counter cell
    holds [n], the cell is set to [n + 1] (in [intp] arithmetic) before
    the source is queried: the source runs from the memory with the
    incremented counter; a valid source result [v] gives the pair
    [(n, v)] with the value [n] read before the increment; and whatever
    the source reports, exhaustion included, the counter holds the
    incremented value afterwards (the source not sharing the counter
    cell). *)
Theorem enumerate_increments_before_source t c it (m : mem) n :
  m !! c = Some (CInt n) ->
  let m1 := <[c := CInt (intp_add n 1)]> m in
  m1 !! c = Some (CInt (intp_add n 1)) /\
  (intp_min <= n < intp_max -> intp_add n 1 = n + 1) /\
  iternext (EnumerateType t) (VEnumerate c it) m =
    match call_iternext t it m1 with
    | Normal srcres m' tr =>
        Normal (if is_valid srcres
                then (VTuple [VInt n; yielded_value srcres], true)
                else (VUndef, false)) m' tr
    | Propagated st m' tr => Propagated st m' tr
    | Fault f => Fault f
    end /\
  (c ∉ footprint t it ->
   forall m',
     final_mem (iternext (EnumerateType t) (VEnumerate c it) m) = Some m' ->
     m' !! c = Some (CInt (intp_add n 1))).
Proof.
  intros Hc m1.
  assert (Hm1 : m1 !! c = Some (CInt (intp_add n 1))).
  { apply list_lookup_insert_eq. by eapply lookup_lt_Some. }
  split; [done|]. split.
  { intros Hn. apply intp_wrap_small. unfold intp_min, intp_max in *. lia. }
  split; [by apply iternext_enumerate_step|].
  intros Hfresh m'. rewrite (iternext_enumerate_step _ _ _ _ _ Hc).
  fold m1. intros Hfinal.
  assert (Hsrc : final_mem (call_iternext t it m1) = Some m').
  { by destruct (call_iternext t it m1). }
  destruct (local_frame _ _ (call_iternext_local t it) m1 m' Hsrc) as [_ Hout].
  by rewrite Hout.
Qed.

(** C9: for every source iterable, [make_enumerate_object] called with
    the source alone has the same outcome as when called with the source
    and an explicit start 0 of any integer type: the same enumerate
    object in the same memory, hence the same pairs in the same order and
    the same point of exhaustion. *)
Theorem enumerate_default_start_is_zero srcty src b sg (m : mem) :
  make_enumerate_object [srcty] [src] m
    = make_enumerate_object [srcty; Integer b sg] [src; VInt 0] m /\
  forall t fuel,
    drive (make_enumerate_object [srcty] [src]) t fuel m
      = drive (make_enumerate_object [srcty; Integer b sg] [src; VInt 0])
          t fuel m.
Proof.
  assert (Heq : make_enumerate_object [srcty] [src] m
                = make_enumerate_object [srcty; Integer b sg] [src; VInt 0] m).
  { unfold make_enumerate_object, cast_to_intp.
    by rewrite bind_ret_l, intp_wrap_0. }
  split; [done|]. intros t fuel. unfold drive. by rewrite Heq.
Qed.

(** *** [getiter] *)

(** C7: for every value whose type is an iterator type, [getiter]
    returns that same value and leaves the memory as it is (nothing is
    allocated or copied), and driving the returned value gives the same
    results as driving the original. *)
Theorem getiter_of_iterator_is_identity t it (m : mem) :
  is_iterator_type t = true ->
  iterator_getiter [it] m = Normal it m [] /\
  call_getiter t it m = Normal it m [] /\
  forall it' m' tr fuel,
    call_getiter t it m = Normal it' m' tr ->
    iterate fuel t it' m' = iterate fuel t it m.
Proof.
  intros Ht.
  assert (Hget : call_getiter t it m = Normal it m []).
  { unfold call_getiter. by rewrite Ht. }
  split; [done|]. split; [done|].
  intros it' m' tr fuel. rewrite Hget. by intros [= <- <- _].
Qed.

(** *** The lockstep combinator *)

(** C2: for every list of N >= 1 sources that do not share cells, the
    i-th one yielding the sequence [S_i], driving the zip object over
    them gives exactly [min(len(S_1), ..., len(S_n))] Valid results, the
    i-th one being the tuple of the i-th elements of all the sequences in
    source order, and then Exhausted. *)
Theorem zip_yields_min_length_tuples srcs (m : mem) fuel :
  srcs <> [] ->
  separate (src_footprint <$> srcs) ->
  Forall (fun s => yields (src_type s) (src_iter s) (src_items s) m) srcs ->
  (min_len (src_items <$> srcs) < fuel)%nat ->
  exists tuples,
    iterate fuel (ZipType (src_type <$> srcs)) (VZip (src_iter <$> srcs)) m
      = (Valid <$> tuples) ++ [Exhausted] /\
    length tuples = min_len (src_items <$> srcs) /\
    forall i, (i < min_len (src_items <$> srcs))%nat ->
      tuples !! i = Some (nth_tuple i (src_items <$> srcs)).
Proof.
  intros Hne Hsep Hall Hfuel.
  exists ((fun i => nth_tuple i (src_items <$> srcs))
            <$> seq 0 (min_len (src_items <$> srcs))).
  split; [|split].
  - rewrite (zip_iterate fuel srcs m Hne Hsep Hall Hfuel).
    by rewrite <- list_fmap_compose.
  - by rewrite length_fmap, length_seq.
  - intros i Hi. rewrite list_lookup_fmap, lookup_seq_lt by done. done.
Qed.

Lemma combine_swap {A B} (l : list A) (k : list B) :
  (fun p => (p.2, p.1)) <$> combine l k = combine k l.
Proof.
  revert k. induction l as [|a l IH]; intros [|b k]; try done.
  simpl combine. rewrite fmap_cons. simpl. by rewrite IH.
Qed.

(** C3: for every zip object over N >= 1 sources, a call of [iternext]
    that reports a result (Valid or Exhausted) has called [iternext] on
    every one of the N sources exactly once, in index order [0 .. N-1],
    each from the memory the previous one left, whether or not an
    earlier source of the round reported exhaustion; the round is valid
    exactly when all the per-source results are.  Such a result is
    reported whenever source after source returns one. *)
Theorem zip_calls_every_source_once ts its (m : mem) :
  length its = length ts ->
  its <> [] ->
  (forall r m' tr,
     iternext (ZipType ts) (VZip its) m = Normal r m' tr ->
     exists rs,
       zip_round (combine its ts) m rs m' tr /\
       event_target <$> tr = combine ts its /\
       length tr = length ts /\
       is_valid r = forallb is_valid rs /\
       (is_valid r = true -> yielded_value r = VTuple (yielded_value <$> rs))) /\
  (forall rs m' tr,
     zip_round (combine its ts) m rs m' tr ->
     exists r, iternext (ZipType ts) (VZip its) m = Normal r m' tr).
Proof.
  intros Hlen Hne. split.
  - intros r m' tr Hrun.
    destruct (iternext_zip_normal_inv _ _ _ _ _ _ Hne Hrun) as (rs & Hround & ->).
    destruct (zip_round_targets _ _ _ _ _ Hround) as [Htargets Hrs].
    rewrite combine_swap in Htargets.
    exists rs. split; [done|]. split; [done|]. split.
    { rewrite <- (length_fmap event_target), Htargets, length_combine. lia. }
    destruct (forallb is_valid rs); by split.
  - intros rs m' tr Hround. eexists. by apply iternext_zip_round.
Qed.

(** C4: when a source call made by a combinator's [iternext] ends in a
    propagated failure, the combinator's own [iternext] ends in that same
    failure right there: for zip, after the sources before the failing
    one were called, with the failing call as the last call made (the
    remaining sources are not called, no validity is combined) and the
    memory as the failing source left it; for enumerate likewise.  The
    outcome is neither Valid nor Exhausted. *)
Theorem combinators_forward_propagated_failure :
  (forall pre (m : mem) rs m1 tr1 it t st m2 tr2 post,
     zip_round pre m rs m1 tr1 ->
     iternext t it m1 = Propagated st m2 tr2 ->
     let srcs := pre ++ (it, t) :: post in
     iternext (ZipType (srcs.*2)) (VZip (srcs.*1)) m
       = Propagated st m2 (tr1 ++ [IterNext t it tr2]) /\
     observe (iternext (ZipType (srcs.*2)) (VZip (srcs.*1)) m)
       = Some (PropagatedFailure st)) /\
  (forall t c it (m : mem) n st m2 tr2,
     m !! c = Some (CInt n) ->
     iternext t it (<[c := CInt (intp_add n 1)]> m) = Propagated st m2 tr2 ->
     iternext (EnumerateType t) (VEnumerate c it) m
       = Propagated st m2 [IterNext t it tr2] /\
     observe (iternext (EnumerateType t) (VEnumerate c it) m)
       = Some (PropagatedFailure st)).
Proof.
  split.
  - intros pre m rs m1 tr1 it t st m2 tr2 post Hpre Hfail srcs.
    assert (Hrun : iternext (ZipType (srcs.*2)) (VZip (srcs.*1)) m
                   = Propagated st m2 (tr1 ++ [IterNext t it tr2])).
    { rewrite iternext_zip_unfold.
      - assert (Hsrcs : combine (srcs.*1) (srcs.*2) = srcs).
        { rewrite combine_fmap. rewrite <- (list_fmap_id srcs) at 2.
          apply list_fmap_ext. by intros _ [] _. }
        rewrite Hsrcs. unfold srcs.
        by rewrite (iternext_zip_loop_propagated _ _ _ _ _ _ _ _ _ _ _ Hpre Hfail).
      - unfold srcs. by destruct pre. }
    by rewrite Hrun.
  - intros t c it m n st m2 tr2 Hc Hfail.
    rewrite (iternext_enumerate_step _ _ _ _ _ Hc), call_iternext_unfold.
    by rewrite Hfail.
Qed.

(** C8: the zip object built over no source at all reports Exhausted on
    every [iternext] call, the first one included, and leaves the memory
    as it is; it never yields a Valid result. *)
Theorem zip_of_nothing_is_exhausted (m : mem) :
  make_zip_object (ZipType []) [] [] m = Normal (VZip []) m [] /\
  (forall ts (m0 : mem),
     iternext (ZipType ts) (VZip []) m0 = Normal (VUndef, false) m0 [] /\
     observe (iternext (ZipType ts) (VZip []) m0) = Some Exhausted) /\
  (forall ts fuel (m0 : mem),
     iterate (S fuel) (ZipType ts) (VZip []) m0 = [Exhausted]).
Proof.
  split; [done|]. split.
  - intros ts m0. by split.
  - intros ts fuel m0. done.
Qed.

(** *** The generator bridge *)

(** C5: for every call of the generator [iternext], with [st] and
    [retval] what the resume function returns: if [st] is ok (and neither
    a stop nor an error) the result is Valid with [retval]; if [st] is a
    stop the result is Exhausted; if [st] is an error and not a stop the
    call does not fall through to a result but leaves through
    [return_status_propagate] with [st]. *)
Theorem generator_status_mapping g p (m : mem) s st retval s' :
  m !! p = Some (CGen s) ->
  get_generator_impl g s = ((st, retval), s') ->
  let o := iternext (Generator g) (VPtr p) m in
  (is_ok st = true -> is_stop_iteration st = false -> is_error st = false ->
   o = Normal (retval, true) (<[p := CGen s']> m) [] /\
   observe o = Some (Valid retval)) /\
  (is_stop_iteration st = true ->
   (exists r, o = Normal r (<[p := CGen s']> m) []) /\
   observe o = Some Exhausted) /\
  (is_error st = true -> is_stop_iteration st = false ->
   o = Propagated st (<[p := CGen s']> m) [] /\
   observe o = Some (PropagatedFailure st)).
Proof.
  intros Hp Himpl o. unfold o.
  rewrite (iternext_generator_step _ _ _ _ _ _ _ Hp Himpl).
  split; [|split].
  - by intros -> -> ->.
  - intros ->. rewrite andb_false_r. eauto.
  - by intros -> ->.
Qed.

(** C10: when the resume function returns a status that is both a stop
    and an error, the generator [iternext] reports Exhausted and does not
    propagate; and whenever it does propagate, the status is an error and
    not a stop. *)
Theorem generator_stop_takes_precedence g p (m : mem) s st retval s' :
  m !! p = Some (CGen s) ->
  get_generator_impl g s = ((st, retval), s') ->
  let o := iternext (Generator g) (VPtr p) m in
  (is_stop_iteration st = true -> is_error st = true ->
   observe o = Some Exhausted /\
   forall st0 m0 tr0, o <> Propagated st0 m0 tr0) /\
  (forall st0 m0 tr0,
     o = Propagated st0 m0 tr0 ->
     st0 = st /\ is_error st = true /\ is_stop_iteration st = false).
Proof.
  intros Hp Himpl o. unfold o.
  rewrite (iternext_generator_step _ _ _ _ _ _ _ Hp Himpl).
  split.
  - by intros -> ->.
  - intros st0 m0 tr0.
    destruct (is_error st), (is_stop_iteration st); simpl; try done.
    by intros [= <- _ _].
Qed.

(** *** Combinators as sources of combinators *)

Lemma iterate_of_yields t it xs (m : mem) :
  yields t it xs m ->
  forall fuel, (length xs < fuel)%nat ->
    iterate fuel t it m = (Valid <$> xs) ++ [Exhausted].
Proof.
  induction 1 as [m r m' tr Hrun Hv|m x xs r m' tr Hrun Hv Hx _ IH];
    intros [|fuel] Hfuel; simpl in Hfuel; try lia.
  - simpl. by rewrite call_iternext_unfold, Hrun, Hv.
  - simpl. rewrite call_iternext_unfold, Hrun, Hv, Hx.
    rewrite IH by lia. done.
Qed.

Lemma drain_iterate fuel t it : forall m : mem, (drain fuel t it m).1 = iterate fuel t it m.
Proof.
  induction fuel as [|fuel IH]; intros m; [done|]. simpl.
  destruct (call_iternext t it m) as [r m' tr| |]; try done.
  destruct (is_valid r); [|done].
  specialize (IH m'). destruct (drain fuel t it m'). simpl in *. by rewrite IH.
Qed.

Lemma enumerate_yields_from t it xs s :
  forall (m : mem) c k,
    yields t it xs m ->
    c ∉ footprint t it ->
    m !! c = Some (CInt (intp_wrap (s + Z.of_nat k))) ->
    yields (EnumerateType t) (VEnumerate c it)
      (imap (fun i x => VTuple [VInt (intp_wrap (s + Z.of_nat (k + i))); x]) xs)
      m.
Proof.
  induction xs as [|x xs IH]; intros m c k Hy Hc Hm.
  - assert (Hy2 : yields t it []
                    (<[c:=CInt (intp_add (intp_wrap (s + Z.of_nat k)) 1)]> m)).
    { eapply yields_agree; [exact Hy|]. intros l Hl.
      rewrite list_lookup_insert_ne; [done|]. intros ->. done. }
    inversion Hy2 as [m0 r m' tr Hrun Hv|]; subst.
    eapply yields_nil.
    + rewrite (iternext_enumerate_step _ _ _ _ _ Hm), call_iternext_unfold, Hrun.
      reflexivity.
    + by rewrite Hv.
  - assert (Hy2 : yields t it (x :: xs)
                    (<[c:=CInt (intp_add (intp_wrap (s + Z.of_nat k)) 1)]> m)).
    { eapply yields_agree; [exact Hy|]. intros l Hl.
      rewrite list_lookup_insert_ne; [done|]. intros ->. done. }
    inversion Hy2 as [|m0 x0 xs0 r m' tr Hrun Hv Hx Hrest]; subst.
    rewrite imap_cons. eapply yields_cons.
    + rewrite (iternext_enumerate_step _ _ _ _ _ Hm), call_iternext_unfold, Hrun.
      reflexivity.
    + by rewrite Hv.
    + rewrite Hv. simpl. by rewrite Nat.add_0_r.
    + assert (Hm' : m' !! c = Some (CInt (intp_wrap (s + Z.of_nat (S k))))).
      { destruct (local_frame _ _ (iternext_local t it)
                    (<[c:=CInt (intp_add (intp_wrap (s + Z.of_nat k)) 1)]> m) m')
          as [_ Hout]; [by rewrite Hrun|].
        rewrite Hout by done.
        rewrite list_lookup_insert_eq by (eapply lookup_lt_Some; eauto).
        rewrite intp_add_wrap. do 3 f_equal. lia. }
      specialize (IH m' c (S k) Hrest Hc Hm').
      erewrite imap_ext; [exact IH|].
      intros i y _. simpl. by rewrite Nat.add_succ_r.
Qed.

Lemma zipped_cons Ss :
  Ss <> [] -> Forall (fun S => S <> []) Ss ->
  zipped Ss = nth_tuple 0 Ss :: zipped (tail <$> Ss).
Proof.
  intros Hne Hall. unfold zipped. rewrite (min_len_tail Ss) by done.
  cbn [seq]. rewrite fmap_cons. f_equal.
  rewrite <- (fmap_S_seq 0), <- (list_fmap_compose S).
  apply list_fmap_ext. intros _ i _. simpl. apply nth_tuple_tail.
Qed.

Lemma zip_yields_bounded n :
  forall srcs (m : mem),
    srcs <> [] ->
    separate (src_footprint <$> srcs) ->
    Forall (fun s => yields (src_type s) (src_iter s) (src_items s) m) srcs ->
    (min_len (src_items <$> srcs) <= n)%nat ->
    yields (ZipType (src_type <$> srcs)) (VZip (src_iter <$> srcs))
      (zipped (src_items <$> srcs)) m.
Proof.
  induction n as [|n IH]; intros srcs m Hne Hsep Hall Hn;
    destruct (zip_round_of_yields srcs m Hsep Hall)
      as (rs & m' & tr & Hround & Hposts & _);
    assert (Hrun : iternext (ZipType (src_type <$> srcs))
                     (VZip (src_iter <$> srcs)) m
                   = Normal (if forallb is_valid rs
                             then (VTuple (yielded_value <$> rs), true)
                             else (VUndef, false)) m' tr)
      by (apply iternext_zip_round;
          [by destruct srcs|by rewrite combine_fmap]);
    destruct (forallb is_valid rs) eqn:Hvalid.
  - destruct (round_post_valid _ _ _ Hposts Hvalid) as (Hnonempty & _ & _).
    rewrite (min_len_tail (src_items <$> srcs)) in Hn;
      [lia|by destruct srcs|by apply Forall_fmap].
  - rewrite (min_len_exhausted _ (round_post_exhausted _ _ _ Hposts Hvalid)) in *.
    unfold zipped.
    rewrite (min_len_exhausted _ (round_post_exhausted _ _ _ Hposts Hvalid)).
    by eapply yields_nil.
  - destruct (round_post_valid _ _ _ Hposts Hvalid) as (Hnonempty & Hheads & Hnext).
    assert (Htypes : src_type <$> srcs = src_type <$> (src_advance <$> srcs))
      by (by rewrite <- list_fmap_compose).
    assert (Hiters : src_iter <$> srcs = src_iter <$> (src_advance <$> srcs))
      by (by rewrite <- list_fmap_compose).
    assert (Hitems : src_items <$> (src_advance <$> srcs)
                     = tail <$> (src_items <$> srcs))
      by (by rewrite <- !list_fmap_compose).
    rewrite zipped_cons; [|by destruct srcs|by apply Forall_fmap].
    eapply yields_cons; [exact Hrun|done| |].
    + simpl. unfold nth_tuple. by rewrite Hheads.
    + rewrite Htypes, Hiters, <- Hitems. apply IH.
      * by destruct srcs.
      * by rewrite <- list_fmap_compose.
      * done.
      * rewrite Hitems.
        rewrite (min_len_tail (src_items <$> srcs)) in Hn;
          [lia|by destruct srcs|by apply Forall_fmap].
  - unfold zipped.
    rewrite (min_len_exhausted _ (round_post_exhausted _ _ _ Hposts Hvalid)).
    by eapply yields_nil.
Qed.

(** *** What [iternext] never does *)

(** [iternext] of an iterator of any type, however nested, allocates no
    cell and leaves every cell outside the footprint of the iterator as
    it was; and its outcome depends on the cells of the footprint
    only. *)
Theorem iternext_stays_in_footprint t it (m : mem) :
  (forall m',
     final_mem (iternext t it m) = Some m' ->
     length m' = length m /\
     forall l, l ∉ footprint t it -> m' !! l = m !! l) /\
  (forall m2 : mem,
     agree_on (footprint t it) m m2 ->
     outcome_rel (agree_on (footprint t it))
       (iternext t it m) (iternext t it m2)).
Proof.
  split.
  - intros m' Hfinal.
    exact (local_frame _ _ (iternext_local t it) m m' Hfinal).
  - intros m2 Hagree.
    exact (local_agree _ _ (iternext_local t it) m m2 Hagree).
Qed.

Lemma bind_propagated_inv {A B} (c : M A) (k : A -> M B) (m : mem) st m' tr :
  bind c k m = Propagated st m' tr ->
  c m = Propagated st m' tr \/
  exists a m1 tr1 tr2,
    c m = Normal a m1 tr1 /\ k a m1 = Propagated st m' tr2.
Proof.
  unfold bind. destruct (c m) as [a m1 tr1|st1 m1 tr1|f]; [| |done].
  - destruct (k a m1) as [b m2 tr2|st2 m2 tr2|f] eqn:Hk; try done.
    intros [= <- <- <-]. right. eauto 10.
  - intros [= <- <- <-]. by left.
Qed.

Lemma propagates_only_bind {A B} Q (c : M A) (k : A -> M B) :
  propagates_only Q c -> (forall a, propagates_only Q (k a)) ->
  propagates_only Q (bind c k).
Proof.
  intros Hc Hk m st m' tr [H|(a & m1 & tr1 & tr2 & _ & H)]%bind_propagated_inv.
  - eapply Hc; eauto.
  - eapply Hk; eauto.
Qed.

Lemma propagates_only_ret {A} Q (a : A) : propagates_only Q (ret a).
Proof. by intros m st m' tr. Qed.

Lemma propagates_only_fail {A} Q f : propagates_only Q (fail (A:=A) f).
Proof. by intros m st m' tr. Qed.

Lemma propagates_only_load Q p : propagates_only Q (load p).
Proof. intros m st m' tr. unfold load. by destruct (m !! p). Qed.

Lemma propagates_only_store Q c p : propagates_only Q (store c p).
Proof. intros m st m' tr. unfold store. by destruct (m !! p). Qed.

Lemma propagates_only_call Q t (impl : val -> M pair) it :
  propagates_only Q (impl it) -> propagates_only Q (call_iternext_with t impl it).
Proof.
  intros H m st m' tr. unfold call_iternext_with.
  destruct (impl it m) as [r m1 tr1|st1 m1 tr1|f] eqn:E; try done.
  intros [= <- <- _]. eapply H; eauto.
Qed.

Lemma iternext_zip_loop_propagates Q ts :
  Forall (fun t => forall it, propagates_only Q (iternext t it)) ts ->
  forall vs valid values,
    propagates_only Q
      (iternext_zip_loop
         (combine vs (map (fun t => call_iternext_with t (iternext t)) ts))
         valid values).
Proof.
  induction 1 as [|t ts Ht _ IH]; intros [|v vs] valid values; simpl;
    try apply propagates_only_ret.
  apply propagates_only_bind.
  - by apply propagates_only_call.
  - intros srcres. apply IH.
Qed.

(** A propagated failure, at whatever depth of enumerate and zip it is
    observed, carries a status that is an error and not a stop: the
    combinators originate none, they pass on what a generator's resume
    function returned. *)
Theorem propagated_failure_is_an_error t it (m : mem) st m' tr :
  iternext t it m = Propagated st m' tr ->
  is_error st = true /\ is_stop_iteration st = false.
Proof.
  revert it m st m' tr. change (forall it, propagates_only failure_status (iternext t it)).
  induction t as [b s|k|k|t IH|ts IH|g] using nbtype_nested_ind; intros it.
  - apply propagates_only_fail.
  - apply propagates_only_fail.
  - simpl. unfold iternext_impl, iternext_ext.
    destruct it; try apply propagates_only_fail.
    apply propagates_only_bind; [apply propagates_only_load|].
    intros [z|s|s]; try apply propagates_only_fail.
    destruct (ext_iternext k s).
    apply propagates_only_bind; [apply propagates_only_store|].
    intros _. apply propagates_only_ret.
  - simpl. unfold iternext_impl, iternext_enumerate, load_int.
    destruct it; try apply propagates_only_fail.
    apply propagates_only_bind.
    { apply propagates_only_bind; [apply propagates_only_load|].
      intros [z|s|s]; auto using propagates_only_ret, propagates_only_fail. }
    intros n0.
    apply propagates_only_bind; [apply propagates_only_store|]. intros _.
    apply propagates_only_bind; [by apply propagates_only_call|].
    intros srcres. destruct (is_valid srcres); apply propagates_only_ret.
  - simpl. unfold iternext_impl, iternext_zip.
    destruct it; try apply propagates_only_fail.
    case_bool_decide; [apply propagates_only_ret|].
    apply propagates_only_bind; [by apply iternext_zip_loop_propagates|].
    intros [valid values]. destruct valid; apply propagates_only_ret.
  - simpl. unfold iternext_impl, iternext_generator, resume.
    apply propagates_only_bind.
    { destruct it; try apply propagates_only_fail.
      apply propagates_only_bind; [apply propagates_only_load|].
      intros [z|s|s]; try apply propagates_only_fail.
      destruct (get_generator_impl g s).
      apply propagates_only_bind; [apply propagates_only_store|].
      intros _. apply propagates_only_ret. }
    intros [st retval].
    apply propagates_only_bind; [destruct (is_ok st); apply propagates_only_ret|].
    intros r1.
    apply propagates_only_bind;
      [destruct (is_stop_iteration st); apply propagates_only_ret|].
    intros r2.
    apply propagates_only_bind; [|intros _; apply propagates_only_ret].
    destruct (is_error st) eqn:He, (is_stop_iteration st) eqn:Hs; simpl;
      try apply propagates_only_ret.
    intros m0 st0 m0' tr0 [= <- _ _]. by split.
Qed.

(** *** Building a zip object *)

Lemma getiter_seq_length srcs (m : mem) its m' tr :
  getiter_seq srcs m its m' tr -> length its = length srcs.
Proof. induction 1; simpl; congruence. Qed.

Lemma make_zip_loop_fill srcs (m : mem) its m' tr :
  getiter_seq srcs m its m' tr ->
  forall i zipobj,
    (i + length srcs <= length zipobj)%nat ->
    make_zip_loop i srcs zipobj m =
      Normal (take i zipobj ++ its ++ drop (i + length srcs) zipobj) m' tr.
Proof.
  induction 1 as [m|arg srcty rest m it m1 tr its m2 trs Hget _ IH];
    intros i zipobj Hlen; simpl in *.
  - unfold ret. by rewrite Nat.add_0_r, take_drop.
  - rewrite (bind_normal _ _ _ _ _ _ Hget).
    rewrite IH by (rewrite length_insert; lia).
    f_equal.
    rewrite (take_S_r _ _ it)
      by (apply list_lookup_insert_eq; lia).
    rewrite take_insert_ge by lia.
    rewrite drop_insert_lt by lia.
    rewrite <- app_assoc. simpl. by rewrite Nat.add_succ_r.
Qed.

Lemma make_zip_object_fill source_types sig_args args (m : mem) its m' tr :
  length args = length source_types ->
  getiter_seq (combine args sig_args) m its m' tr ->
  make_zip_object (ZipType source_types) sig_args args m
    = Normal (VZip (its ++ replicate (length source_types - length its) VUndef))
        m' tr.
Proof.
  intros Hlen Hseq.
  pose proof (getiter_seq_length _ _ _ _ _ Hseq) as Hits.
  unfold make_zip_object. rewrite bool_decide_eq_true_2 by done.
  erewrite bind_normal.
  2:{ apply (make_zip_loop_fill _ _ _ _ _ Hseq).
      rewrite length_replicate, length_combine. lia. }
  unfold impl_ret_new_ref, ret. rewrite app_nil_r.
  rewrite take_0, drop_replicate. simpl. by rewrite Hits.
Qed.

Lemma make_zip_object_full source_types sig_args args (m : mem) its m' tr :
  length args = length source_types ->
  length sig_args = length args ->
  getiter_seq (combine args sig_args) m its m' tr ->
  make_zip_object (ZipType source_types) sig_args args m
    = Normal (VZip its) m' tr.
Proof.
  intros Hlen Hsig Hseq.
  rewrite (make_zip_object_fill _ _ _ _ _ _ _ Hlen Hseq).
  rewrite (getiter_seq_length _ _ _ _ _ Hseq), length_combine, Hsig, <- Hlen,
    Nat.min_id, Nat.sub_diag.
  simpl. by rewrite app_nil_r.
Qed.

(** [make_zip_object] calls [getiter] on its arguments in order, each
    from the memory the previous call left, and stores the iterators in
    that order: the zip object holds exactly these iterators when there
    are as many argument types as arguments, and undefined fields after
    them when there are fewer. *)
Theorem make_zip_object_collects_iterators
    source_types sig_args args (m : mem) its m' tr :
  length args = length source_types ->
  getiter_seq (combine args sig_args) m its m' tr ->
  make_zip_object (ZipType source_types) sig_args args m
    = Normal (VZip (its ++ replicate (length source_types - length its) VUndef))
        m' tr /\
  (length sig_args = length args ->
   make_zip_object (ZipType source_types) sig_args args m
     = Normal (VZip its) m' tr).
Proof.
  intros Hlen Hseq. split.
  - by apply make_zip_object_fill.
  - intros Hsig. by apply make_zip_object_full.
Qed.

Lemma getiter_seq_iterators ts :
  Forall (fun t => is_iterator_type t = true) ts ->
  forall args (m : mem),
    length args = length ts ->
    getiter_seq (combine args ts) m args m [].
Proof.
  induction 1 as [|t ts Ht _ IH]; intros [|arg args] m Hlen; try done.
  - constructor.
  - simpl combine. change (@nil event) with (@nil event ++ []).
    econstructor.
    + unfold call_getiter. rewrite Ht. reflexivity.
    + apply IH. simpl in Hlen. lia.
Qed.

(** A zip object built over values that are iterators already holds
    these very values: nothing is allocated, the memory is as before,
    and the zip shares the state of its arguments. *)
Theorem make_zip_object_of_iterators ts args (m : mem) :
  Forall (fun t => is_iterator_type t = true) ts ->
  length args = length ts ->
  make_zip_object (ZipType ts) ts args m = Normal (VZip args) m [] /\
  footprint (ZipType ts) (VZip args) = mjoin (zip_with footprint ts args).
Proof.
  intros Hts Hlen. split; [|apply footprint_zip].
  apply make_zip_object_full; [done|done|].
  by apply getiter_seq_iterators.
Qed.

(** *** Sources implemented elsewhere, and generators, as sequences *)

Lemma iternext_ext_step k p (m : mem) s r s' :
  m !! p = Some (CExt s) ->
  ext_iternext k s = (r, s') ->
  iternext (ExtIterator k) (VPtr p) m
    = Normal (yielded_value r, is_valid r) (<[p := CExt s']> m) [].
Proof.
  intros Hp Hnext. simpl.
  unfold iternext_impl, iternext_ext, bind, load, store, ret.
  rewrite Hp, Hnext. simpl. by rewrite Hp.
Qed.

Lemma ext_yields_yields k s xs :
  ext_yields k s xs ->
  forall (m : mem) p,
    m !! p = Some (CExt s) -> yields (ExtIterator k) (VPtr p) xs m.
Proof.
  induction 1 as [s r s' Hnext Hv|s x xs r s' Hnext Hv Hx _ IH]; intros m p Hp.
  - eapply yields_nil; [by eapply iternext_ext_step|done].
  - eapply yields_cons; [by eapply iternext_ext_step|done|done|].
    apply IH. apply list_lookup_insert_eq. by eapply lookup_lt_Some.
Qed.

Lemma gen_yields_yields g s xs :
  gen_yields g s xs ->
  forall (m : mem) p,
    m !! p = Some (CGen s) -> yields (Generator g) (VPtr p) xs m.
Proof.
  induction 1 as [s st retval s' Himpl Hstop
                 |s x xs st s' Himpl Hok Hstop Herr _ IH]; intros m p Hp.
  - eapply yields_nil.
    + rewrite (iternext_generator_step _ _ _ _ _ _ _ Hp Himpl), Hstop.
      rewrite andb_false_r. reflexivity.
    + done.
  - eapply yields_cons.
    + rewrite (iternext_generator_step _ _ _ _ _ _ _ Hp Himpl), Hok, Hstop, Herr.
      reflexivity.
    + done.
    + done.
    + apply IH. apply list_lookup_insert_eq. by eapply lookup_lt_Some.
Qed.

(** A generator whose resume function returns the values [xs] one by one
    with an ok status and then a stop is driven to Valid for each value
    in order, followed by Exhausted; each call replaces the generator's
    state by the one the resume function returned. *)
Theorem generator_yields_its_values g s xs (m : mem) p fuel :
  m !! p = Some (CGen s) ->
  gen_yields g s xs ->
  (length xs < fuel)%nat ->
  iterate fuel (Generator g) (VPtr p) m = (Valid <$> xs) ++ [Exhausted].
Proof.
  intros Hp Hgen Hfuel. apply iterate_of_yields; [|done].
  by eapply gen_yields_yields.
Qed.

(** *** A zip built over iterables *)

Lemma fresh_sources_types a inputs :
  src_type <$> fresh_sources a inputs
    = (fun x => ExtIterator x.1.1) <$> inputs.
Proof.
  revert a. induction inputs as [|[[k v] items] inputs IH]; intros a; [done|].
  simpl fresh_sources. rewrite !fmap_cons. by rewrite IH.
Qed.

Lemma fresh_sources_items a inputs :
  src_items <$> fresh_sources a inputs = inputs.*2.
Proof.
  revert a. induction inputs as [|[[k v] items] inputs IH]; intros a; [done|].
  simpl fresh_sources. rewrite !fmap_cons. by rewrite IH.
Qed.

Lemma fresh_sources_above a inputs l :
  l ∈ mjoin (src_footprint <$> fresh_sources a inputs) -> (a <= l)%nat.
Proof.
  revert a. induction inputs as [|[[k v] items] inputs IH]; intros a.
  - by intros ?%elem_of_nil.
  - simpl fresh_sources. rewrite fmap_cons. simpl.
    intros [->|Hl]%elem_of_cons; [lia|].
    apply IH in Hl. lia.
Qed.

Lemma fresh_sources_separate a inputs :
  separate (src_footprint <$> fresh_sources a inputs).
Proof.
  revert a. induction inputs as [|[[k v] items] inputs IH]; intros a; [done|].
  simpl fresh_sources. rewrite fmap_cons. split; [|apply IH].
  intros l ->%list_elem_of_singleton. apply Forall_forall.
  intros fp Hfp Hl.
  assert (Hge : (S a <= a)%nat); [|lia].
  apply (fresh_sources_above (S a) inputs). apply list_elem_of_join. eauto.
Qed.

Lemma fresh_sources_getiter inputs states :
  Forall2 (fun x s => ext_getiter x.1.1 x.1.2 = Some s) inputs states ->
  forall m : mem,
    getiter_seq
      (combine ((fun x => x.1.2) <$> inputs)
               ((fun x => ExtIterable x.1.1) <$> inputs))
      m (src_iter <$> fresh_sources (length m) inputs)
      (m ++ (CExt <$> states)) [].
Proof.
  induction 1 as [|[[k v] items] s inputs states Hget _ IH]; intros m.
  - rewrite app_nil_r. constructor.
  - simpl fresh_sources. rewrite !fmap_cons. simpl combine.
    change (@nil event) with (@nil event ++ []).
    econstructor.
    + unfold call_getiter, ext_iterable_getiter. simpl in *. rewrite Hget.
      reflexivity.
    + specialize (IH (m ++ [CExt s])).
      rewrite length_app in IH. simpl in IH.
      rewrite Nat.add_1_r, <- app_assoc in IH. exact IH.
Qed.

Lemma fresh_sources_yield inputs states :
  Forall2 (fun x s => ext_yields x.1.1 s x.2) inputs states ->
  forall pre : mem,
    Forall (fun s => yields (src_type s) (src_iter s) (src_items s)
                       (pre ++ (CExt <$> states)))
           (fresh_sources (length pre) inputs).
Proof.
  induction 1 as [|[[k v] items] s inputs states Hy _ IH]; intros pre.
  - constructor.
  - simpl fresh_sources. rewrite fmap_cons. constructor.
    + unfold src_type, src_iter, src_items. simpl.
      eapply ext_yields_yields; [exact Hy|].
      rewrite lookup_app_r by done. by rewrite Nat.sub_diag.
    + specialize (IH (pre ++ [CExt s])).
      rewrite length_app in IH. simpl in IH.
      rewrite Nat.add_1_r, <- app_assoc in IH. exact IH.
Qed.

(** The zip object built by [make_zip_object] over N >= 1 iterables
    implemented elsewhere gets N new iterators, allocated in argument
    order after the cells in use; driven, it gives the tuples of the
    i-th elements of the sequences these iterables hold, as many as the
    shortest sequence has, and then Exhausted. *)
Theorem zip_of_iterables inputs states (m : mem) fuel :
  inputs <> [] ->
  Forall2 (fun x s => ext_getiter x.1.1 x.1.2 = Some s /\
                      ext_yields x.1.1 s x.2) inputs states ->
  (min_len (inputs.*2) < fuel)%nat ->
  let zip_type := ZipType ((fun x => ExtIterator x.1.1) <$> inputs) in
  let build :=
    make_zip_object zip_type ((fun x => ExtIterable x.1.1) <$> inputs)
      ((fun x => x.1.2) <$> inputs) in
  build m = Normal (VZip (src_iter <$> fresh_sources (length m) inputs))
              (m ++ (CExt <$> states)) [] /\
  drive build zip_type fuel m
    = Some ((Valid <$> zipped (inputs.*2)) ++ [Exhausted]).
Proof.
  intros Hne Hall Hfuel zip_type build.
  assert (Hget : Forall2 (fun x s => ext_getiter x.1.1 x.1.2 = Some s)
                   inputs states)
    by (eapply Forall2_impl; [exact Hall|]; by intros ? ? [? ?]).
  assert (Hys : Forall2 (fun x s => ext_yields x.1.1 s x.2) inputs states)
    by (eapply Forall2_impl; [exact Hall|]; by intros ? ? [? ?]).
  assert (Hbuild : build m
                   = Normal (VZip (src_iter <$> fresh_sources (length m) inputs))
                       (m ++ (CExt <$> states)) []).
  { apply make_zip_object_full; [by rewrite !length_fmap..|].
    by apply fresh_sources_getiter. }
  split; [done|]. unfold drive. rewrite Hbuild. f_equal.
  unfold zip_type. rewrite <- (fresh_sources_types (length m)).
  rewrite zip_iterate.
  - rewrite fresh_sources_items. unfold zipped.
    by rewrite <- list_fmap_compose.
  - destruct inputs as [|[[k v] items] inputs]; done.
  - apply fresh_sources_separate.
  - by apply fresh_sources_yield.
  - by rewrite fresh_sources_items.
Qed.

(** *** Nesting *)

Lemma length_zipped Ss : length (zipped Ss) = min_len Ss.
Proof. unfold zipped. by rewrite length_fmap, length_seq. Qed.

(** [enumerate(zip(...), s0)]: the enumerate object built over a zip
    object of N >= 1 separate sources takes the zip object itself as its
    iterator ([getiter] is the identity on it), adds one counter cell,
    and is driven to the pairs of an index, counted from [s0] in [intp]
    arithmetic, and the tuple of the i-th elements of the sources, as
    many as the shortest source has, and then Exhausted. *)
Theorem enumerate_of_zip srcs (m : mem) b sg s0 fuel :
  srcs <> [] ->
  separate (src_footprint <$> srcs) ->
  Forall (fun s => yields (src_type s) (src_iter s) (src_items s) m) srcs ->
  (min_len (src_items <$> srcs) < fuel)%nat ->
  let zip_type := ZipType (src_type <$> srcs) in
  let zipobj := VZip (src_iter <$> srcs) in
  make_enumerate_object [zip_type; Integer b sg] [zipobj; VInt s0] m
    = Normal (VEnumerate (length m) zipobj) (m ++ [CInt (intp_wrap s0)]) [] /\
  iterate fuel (EnumerateType zip_type) (VEnumerate (length m) zipobj)
    (m ++ [CInt (intp_wrap s0)])
    = (Valid <$> enumerated_intp s0 (zipped (src_items <$> srcs)))
      ++ [Exhausted].
Proof.
  intros Hne Hsep Hall Hfuel zip_type zipobj.
  split; [by apply make_enumerate_object_start|].
  assert (Hy : yields zip_type zipobj (zipped (src_items <$> srcs)) m)
    by (by eapply zip_yields_bounded).
  assert (Hfresh : length m ∉ footprint zip_type zipobj).
  { intros Hin. pose proof (yields_allocated _ _ _ _ Hy _ Hin). lia. }
  rewrite (enumerate_iterate _ _ (zipped (src_items <$> srcs)) s0 _ _ 0%nat);
    try done.
  - f_equal. unfold enumerated_intp. by rewrite fmap_imap.
  - eapply yields_agree; [exact Hy|]. intros l Hl.
    symmetry. apply lookup_app_l. by eapply yields_allocated.
  - rewrite lookup_app_r by done. rewrite Nat.sub_diag. simpl.
    by rewrite Z.add_0_r.
  - by rewrite length_zipped.
Qed.

(** *** What a drained combinator leaves behind *)

Lemma round_post_rest (m' : mem) srcs rs :
  Forall2 (round_post m') srcs rs ->
  Forall (fun s => (0 < length (src_items s))%nat ->
                   yields (src_type s) (src_iter s) (drop 1 (src_items s)) m')
         srcs.
Proof.
  induction 1 as [|s r srcs rs Hsr _ IH]; constructor; [|done].
  unfold round_post in Hsr. destruct (src_items s) as [|x xs]; simpl; [lia|].
  intros _. by destruct Hsr as (_ & _ & Hy).
Qed.

Lemma zip_drain fuel :
  forall srcs (m : mem),
    srcs <> [] ->
    separate (src_footprint <$> srcs) ->
    Forall (fun s => yields (src_type s) (src_iter s) (src_items s) m) srcs ->
    (min_len (src_items <$> srcs) < fuel)%nat ->
    Forall (fun s =>
              (min_len (src_items <$> srcs) < length (src_items s))%nat ->
              yields (src_type s) (src_iter s)
                (drop (S (min_len (src_items <$> srcs))) (src_items s))
                (drain fuel (ZipType (src_type <$> srcs))
                   (VZip (src_iter <$> srcs)) m).2)
           srcs.
Proof.
  induction fuel as [|fuel IH]; intros srcs m Hne Hsep Hall Hfuel; [lia|].
  destruct (zip_round_of_yields srcs m Hsep Hall)
    as (rs & m' & tr & Hround & Hposts & _).
  simpl drain. rewrite call_iternext_unfold.
  rewrite (iternext_zip_round _ _ m rs m' tr);
    [|by destruct srcs|by rewrite combine_fmap].
  destruct (forallb is_valid rs) eqn:Hvalid; simpl.
  - destruct (round_post_valid _ _ _ Hposts Hvalid) as (Hnonempty & _ & Hnext).
    assert (Hmin : min_len (src_items <$> srcs)
                   = S (min_len (tail <$> (src_items <$> srcs)))).
    { apply min_len_tail; [by destruct srcs|by apply Forall_fmap]. }
    assert (Htypes : src_type <$> srcs = src_type <$> (src_advance <$> srcs))
      by (by rewrite <- list_fmap_compose).
    assert (Hiters : src_iter <$> srcs = src_iter <$> (src_advance <$> srcs))
      by (by rewrite <- list_fmap_compose).
    assert (Hitems : src_items <$> (src_advance <$> srcs)
                     = tail <$> (src_items <$> srcs))
      by (by rewrite <- !list_fmap_compose).
    assert (Hrec := IH (src_advance <$> srcs) m').
    rewrite <- Htypes, <- Hiters, Hitems in Hrec.
    destruct (drain fuel (ZipType (src_type <$> srcs))
                (VZip (src_iter <$> srcs)) m') as [results mf].
    simpl in *. rewrite Hmin.
    assert (Hrec' := Hrec ltac:(by destruct srcs)
                          ltac:(by rewrite <- list_fmap_compose)
                          Hnext ltac:(lia)).
    apply Forall_fmap in Hrec'.
    rewrite Forall_forall in Hrec', Hnonempty. apply Forall_forall.
    intros s Hs Hlen. specialize (Hrec' s Hs). specialize (Hnonempty s Hs).
    unfold src_advance, src_items, src_type, src_iter in *. simpl in *.
    destruct (s.2) as [|x xs]; [done|]. simpl in *.
    apply Hrec'. lia.
  - rewrite (min_len_exhausted _ (round_post_exhausted _ _ _ Hposts Hvalid)).
    by eapply round_post_rest.
Qed.

(** Zip advances every source once more than it yields tuples: after
    the zip over N >= 1 separate sources is driven to exhaustion, each
    source holding more elements than the shortest one has lost
    [min + 1] of them, whether it comes before or after the first
    exhausted source. *)
Theorem zip_consumes_one_past_the_shortest srcs (m : mem) fuel :
  srcs <> [] ->
  separate (src_footprint <$> srcs) ->
  Forall (fun s => yields (src_type s) (src_iter s) (src_items s) m) srcs ->
  (min_len (src_items <$> srcs) < fuel)%nat ->
  let run := drain fuel (ZipType (src_type <$> srcs))
               (VZip (src_iter <$> srcs)) m in
  run.1 = (Valid <$> zipped (src_items <$> srcs)) ++ [Exhausted] /\
  Forall (fun s =>
            (min_len (src_items <$> srcs) < length (src_items s))%nat ->
            yields (src_type s) (src_iter s)
              (drop (S (min_len (src_items <$> srcs))) (src_items s)) run.2)
         srcs.
Proof.
  intros Hne Hsep Hall Hfuel run. split.
  - unfold run. rewrite drain_iterate, zip_iterate by done.
    unfold zipped. by rewrite <- list_fmap_compose.
  - by apply zip_drain.
Qed.

Lemma enumerate_drain t it xs s :
  forall (m : mem) c k fuel,
    yields t it xs m ->
    c ∉ footprint t it ->
    m !! c = Some (CInt (intp_wrap (s + Z.of_nat k))) ->
    (length xs < fuel)%nat ->
    (drain fuel (EnumerateType t) (VEnumerate c it) m).2 !! c
      = Some (CInt (intp_wrap (s + Z.of_nat (k + length xs + 1)))).
Proof.
  induction xs as [|x xs IH]; intros m c k fuel Hy Hc Hm Hfuel;
    (destruct fuel as [|fuel]; [simpl in Hfuel; lia|]);
    simpl drain;
    rewrite call_iternext_unfold, (iternext_enumerate_step _ _ _ _ _ Hm);
    set (m1 := <[c:=CInt (intp_add (intp_wrap (s + Z.of_nat k)) 1)]> m).
  - assert (Hy2 : yields t it [] m1).
    { eapply yields_agree; [exact Hy|]. intros l Hl. unfold m1.
      rewrite list_lookup_insert_ne; [done|]. intros ->. done. }
    inversion Hy2 as [m0 r m' tr Hrun Hv|]; subst.
    rewrite call_iternext_unfold, Hrun, Hv. simpl.
    destruct (local_frame _ _ (iternext_local t it) m1 m') as [_ Hout];
      [by rewrite Hrun|].
    rewrite Hout by done. unfold m1.
    rewrite list_lookup_insert_eq by (eapply lookup_lt_Some; eauto).
    rewrite intp_add_wrap. do 3 f_equal. lia.
  - assert (Hy2 : yields t it (x :: xs) m1).
    { eapply yields_agree; [exact Hy|]. intros l Hl. unfold m1.
      rewrite list_lookup_insert_ne; [done|]. intros ->. done. }
    inversion Hy2 as [|m0 x0 xs0 r m' tr Hrun Hv Hx Hrest]; subst.
    rewrite call_iternext_unfold, Hrun, Hv. simpl.
    assert (Hm' : m' !! c = Some (CInt (intp_wrap (s + Z.of_nat (S k))))).
    { destruct (local_frame _ _ (iternext_local t it) m1 m') as [_ Hout];
        [by rewrite Hrun|].
      rewrite Hout by done. unfold m1.
      rewrite list_lookup_insert_eq by (eapply lookup_lt_Some; eauto).
      rewrite intp_add_wrap. do 3 f_equal. lia. }
    specialize (IH m' c (S k) fuel Hrest Hc Hm' ltac:(simpl in Hfuel; lia)).
    destruct (drain fuel (EnumerateType t) (VEnumerate c it) m') as [rs mf].
    simpl in *. rewrite IH. do 3 f_equal. lia.
Qed.

(** The counter of an enumerate object counts the calls of [iternext],
    not the pairs yielded: once the object built with start [s0] over a
    source of [len] elements is driven to exhaustion, its counter cell
    holds [s0 + len + 1] (in [intp] arithmetic), one more than the index
    after the last pair. *)
Theorem enumerate_counter_after_exhaustion
    srcty src b sg s0 xs (m m1 : mem) it tr fuel :
  call_getiter srcty src m = Normal it m1 tr ->
  yields (iterator_type srcty) it xs m1 ->
  (length xs < fuel)%nat ->
  make_enumerate_object [srcty; Integer b sg] [src; VInt s0] m
    = Normal (VEnumerate (length m1) it) (m1 ++ [CInt (intp_wrap s0)]) tr /\
  (drain fuel (EnumerateType (iterator_type srcty))
     (VEnumerate (length m1) it) (m1 ++ [CInt (intp_wrap s0)])).2
    !! length m1
    = Some (CInt (intp_wrap (s0 + Z.of_nat (length xs) + 1))).
Proof.
  intros Hget Hy Hfuel. split; [by apply make_enumerate_object_start|].
  assert (Hfresh : length m1 ∉ footprint (iterator_type srcty) it).
  { intros Hin. pose proof (yields_allocated _ _ _ _ Hy _ Hin). lia. }
  rewrite (enumerate_drain _ _ xs s0 _ _ 0%nat); try done.
  - do 3 f_equal. lia.
  - eapply yields_agree; [exact Hy|]. intros l Hl.
    symmetry. apply lookup_app_l. by eapply yields_allocated.
  - rewrite lookup_app_r by done. rewrite Nat.sub_diag. simpl.
    by rewrite Z.add_0_r.
Qed.

(** *** One iterator in two places *)

Lemma zip_twice_iterate t it fuel :
  sticky t it ->
  forall xs (m : mem),
    yields t it xs m ->
    (length (pair_up xs) < fuel)%nat ->
    iterate fuel (ZipType [t; t]) (VZip [it; it]) m
      = (Valid <$> pair_up xs) ++ [Exhausted].
Proof.
  intros Hsticky.
  induction fuel as [|fuel IH]; intros xs m Hy Hfuel; [lia|].
  simpl iterate. rewrite call_iternext_unfold.
  destruct Hy as [m r1 m1 tr1 Hrun1 Hv1|m x xs r1 m1 tr1 Hrun1 Hv1 Hx Hy1].
  - destruct (Hsticky _ _ _ _ Hrun1 Hv1) as (r2 & m2 & tr2 & Hrun2 & Hv2).
    rewrite (iternext_zip_round [t; t] [it; it] m [r1; r2] m2
               [IterNext t it tr1; IterNext t it tr2]);
      [|done|by repeat econstructor].
    simpl. by rewrite Hv1.
  - destruct Hy1 as [m1 r2 m2 tr2 Hrun2 Hv2|m1 y ys r2 m2 tr2 Hrun2 Hv2 Hy Hy2].
    + rewrite (iternext_zip_round [t; t] [it; it] m [r1; r2] m2
                 [IterNext t it tr1; IterNext t it tr2]);
        [|done|by repeat econstructor].
      simpl. by rewrite Hv1, Hv2.
    + rewrite (iternext_zip_round [t; t] [it; it] m [r1; r2] m2
                 [IterNext t it tr1; IterNext t it tr2]);
        [|done|by repeat econstructor].
      simpl. rewrite Hv1, Hv2. simpl. rewrite Hx, Hy.
      rewrite (IH ys m2 Hy2) by (simpl in Hfuel; lia). done.
Qed.

Lemma yields_iterator_type t it xs (m : mem) :
  yields t it xs m -> is_iterator_type t = true.
Proof.
  intros [? ? ? ? Hrun|? ? ? ? ? ? Hrun]; by destruct t.
Qed.

(** [zip(it, it)]: the zip object over the same iterator twice calls it
    twice a round, so it yields the elements of the iterator two by two,
    [(x0, x1), (x2, x3), ...]; a last element without a partner is taken
    from the iterator and dropped.  The iterator is one that keeps
    reporting exhaustion once exhausted, for it is called again in the
    round in which it runs out. *)
Theorem zip_of_one_iterator_twice t it xs (m : mem) fuel :
  yields t it xs m ->
  sticky t it ->
  (length (pair_up xs) < fuel)%nat ->
  make_zip_object (ZipType [t; t]) [t; t] [it; it] m
    = Normal (VZip [it; it]) m [] /\
  iterate fuel (ZipType [t; t]) (VZip [it; it]) m
    = (Valid <$> pair_up xs) ++ [Exhausted].
Proof.
  intros Hy Hsticky Hfuel. split; [|by apply zip_twice_iterate].
  pose proof (yields_iterator_type _ _ _ _ Hy) as Ht.
  apply make_zip_object_full; [done|done|].
  apply getiter_seq_iterators; [|done]. by repeat constructor.
Qed.

(** *** A source that fails on the way *)

Lemma fails_after_agree t it xs st (m1 : mem) :
  fails_after t it xs st m1 ->
  forall m2, agree_on (footprint t it) m1 m2 -> fails_after t it xs st m2.
Proof.
  induction 1 as [m1 st m1' tr Hrun|m1 x xs st r m1' tr Hrun Hv Hx _ IH];
    intros m2 H12.
  - pose proof (local_agree _ _ (iternext_local t it) _ _ H12) as Hrel.
    rewrite Hrun in Hrel.
    destruct (iternext t it m2) as [|st2 m2' tr2|] eqn:Hrun2; try done.
    destruct Hrel as (<- & _ & _). by eapply fails_after_nil.
  - pose proof (local_agree _ _ (iternext_local t it) _ _ H12) as Hrel.
    rewrite Hrun in Hrel.
    destruct (iternext t it m2) as [r2 m2' tr2| |] eqn:Hrun2; try done.
    destruct Hrel as (<- & _ & Hagree). eapply fails_after_cons; eauto.
Qed.

Lemma enumerate_fails_iterate t it xs st s :
  forall (m : mem) c k fuel,
    fails_after t it xs st m ->
    c ∉ footprint t it ->
    m !! c = Some (CInt (intp_wrap (s + Z.of_nat k))) ->
    (length xs < fuel)%nat ->
    iterate fuel (EnumerateType t) (VEnumerate c it) m =
      imap (fun i x =>
              Valid (VTuple [VInt (intp_wrap (s + Z.of_nat (k + i))); x])) xs
      ++ [PropagatedFailure st].
Proof.
  induction xs as [|x xs IH]; intros m c k fuel Hf Hc Hm Hfuel;
    (destruct fuel as [|fuel]; [simpl in Hfuel; lia|]);
    simpl iterate;
    rewrite call_iternext_unfold, (iternext_enumerate_step _ _ _ _ _ Hm);
    set (m1 := <[c:=CInt (intp_add (intp_wrap (s + Z.of_nat k)) 1)]> m).
  - assert (Hf2 : fails_after t it [] st m1).
    { eapply fails_after_agree; [exact Hf|]. intros l Hl. unfold m1.
      rewrite list_lookup_insert_ne; [done|]. intros ->. done. }
    inversion Hf2 as [m0 st0 m' tr Hrun|]; subst.
    by rewrite call_iternext_unfold, Hrun.
  - assert (Hf2 : fails_after t it (x :: xs) st m1).
    { eapply fails_after_agree; [exact Hf|]. intros l Hl. unfold m1.
      rewrite list_lookup_insert_ne; [done|]. intros ->. done. }
    inversion Hf2 as [|m0 x0 xs0 st0 r m' tr Hrun Hv Hx Hrest]; subst.
    rewrite call_iternext_unfold, Hrun, Hv. simpl.
    rewrite Nat.add_0_r. f_equal.
    rewrite (IH m' c (S k)); [| done | done | | simpl in Hfuel; lia].
    + f_equal. apply imap_ext. intros i y _. simpl.
      by rewrite Nat.add_succ_r.
    + destruct (local_frame _ _ (iternext_local t it) m1 m') as [_ Hout];
        [by rewrite Hrun|].
      rewrite Hout by done. unfold m1.
      rewrite list_lookup_insert_eq by (eapply lookup_lt_Some; eauto).
      rewrite intp_add_wrap. do 3 f_equal. lia.
Qed.

(** An enumerate object over a source that yields [xs] and then fails
    is driven to the pairs for [xs], indexed from the counter's value in
    [intp] arithmetic, and then to the source's failure with its status
    unchanged: the pairs before the failure are not lost, and no pair or
    exhaustion is reported for the failing call. *)
Theorem enumerate_of_failing_source t it xs st (m : mem) c s0 fuel :
  fails_after t it xs st m ->
  c ∉ footprint t it ->
  m !! c = Some (CInt (intp_wrap s0)) ->
  (length xs < fuel)%nat ->
  iterate fuel (EnumerateType t) (VEnumerate c it) m
    = (Valid <$> enumerated_intp s0 xs) ++ [PropagatedFailure st].
Proof.
  intros Hf Hc Hm Hfuel.
  rewrite (enumerate_fails_iterate _ _ xs st s0 _ _ 0%nat); try done.
  - f_equal. unfold enumerated_intp. by rewrite fmap_imap.
  - by rewrite Z.add_0_r.
Qed.

End Properties.

(** ** The properties on concrete iterators *)

Section Instances.
Existing Instance seq_context.

Local Ltac yields_steps :=
  repeat (eapply yields_cons; [reflexivity|reflexivity|reflexivity|]);
  eapply yields_nil; reflexivity.

(** Scenario A: [enumerate([10, 20, 30], 5)]. *)
Lemma enumerate_yields_indexed_pairs_witness :
  exists enum m2 tr2,
    make_enumerate_object [ExtIterable 0; Integer 64 true]
      [VTuple [VInt 10; VInt 20; VInt 30]; VInt 5] []
      = Normal enum m2 tr2 /\
    (forall fuel, (3 < fuel)%nat ->
       iterate fuel (EnumerateType (ExtIterator 0)) enum m2
         = (Valid <$> enumerated_intp 5 [VInt 10; VInt 20; VInt 30])
           ++ [Exhausted]) /\
    (intp_min <= 5 -> 5 + 3 - 1 <= intp_max ->
       enumerated_intp 5 [VInt 10; VInt 20; VInt 30]
         = enumerated 5 [VInt 10; VInt 20; VInt 30]).
Proof.
  apply (enumerate_yields_indexed_pairs (ExtIterable 0)
           (VTuple [VInt 10; VInt 20; VInt 30]) 64 true 5
           [VInt 10; VInt 20; VInt 30] []
           [seq_cell [VInt 10; VInt 20; VInt 30]] (VPtr 0) []).
  - reflexivity.
  - yields_steps.
Defined.

(** The index of [enumerate] wraps around at the largest [intp]: the
    second pair of [enumerate([10, 20], 2^63 - 1)] carries [-2^63], not
    [2^63]. *)
Lemma enumerate_index_wraps_around :
  let s0 := 2 ^ 63 - 1 in
  let S := [VInt 10; VInt 20] in
  let observed :=
    drive (make_enumerate_object [ExtIterable 0; Integer 64 true]
             [VTuple S; VInt s0])
      (EnumerateType (ExtIterator 0)) 3 [] in
  observed = Some [Valid (VTuple [VInt (2 ^ 63 - 1); VInt 10]);
                   Valid (VTuple [VInt (- 2 ^ 63); VInt 20]);
                   Exhausted] /\
  observed <> Some ((Valid <$> enumerated s0 S) ++ [Exhausted]).
Proof.
  split; [vm_compute; reflexivity|].
  vm_compute. discriminate.
Qed.
(** Scenario B: [zip([1, 2, 3], [9, 8])]. *)
Lemma zip_yields_min_length_tuples_witness :
  let srcs := [(VPtr 0, ExtIterator 0, [VInt 1; VInt 2; VInt 3]);
               (VPtr 1, ExtIterator 0, [VInt 9; VInt 8])] in
  exists tuples,
    iterate 3 (ZipType (src_type <$> srcs)) (VZip (src_iter <$> srcs))
      [seq_cell [VInt 1; VInt 2; VInt 3]; seq_cell [VInt 9; VInt 8]]
      = (Valid <$> tuples) ++ [Exhausted] /\
    length tuples = min_len (src_items <$> srcs) /\
    forall i, (i < min_len (src_items <$> srcs))%nat ->
      tuples !! i = Some (nth_tuple i (src_items <$> srcs)).
Proof.
  intros srcs.
  apply (zip_yields_min_length_tuples srcs
           [seq_cell [VInt 1; VInt 2; VInt 3]; seq_cell [VInt 9; VInt 8]] 3).
  - discriminate.
  - repeat split.
    + intros l Hl. apply list_elem_of_singleton in Hl. subst l.
      repeat constructor. intros Hl. apply list_elem_of_singleton in Hl.
      discriminate.
    + intros l Hl. constructor.
  - repeat constructor; unfold src_type, src_iter, src_items; simpl;
      yields_steps.
  - simpl. lia.
Defined.

(** Scenario C: [zip([], [1, 2])]; the second source is advanced although
    the first one is exhausted. *)
Lemma zip_calls_every_source_once_witness :
  iternext (ZipType [ExtIterator 0; ExtIterator 0]) (VZip [VPtr 0; VPtr 1])
    [seq_cell []; seq_cell [VInt 1; VInt 2]]
    = Normal (VUndef, false) [seq_cell []; seq_cell [VInt 2]]
        [IterNext (ExtIterator 0) (VPtr 0) [];
         IterNext (ExtIterator 0) (VPtr 1) []] /\
  exists rs,
    zip_round (combine [VPtr 0; VPtr 1] [ExtIterator 0; ExtIterator 0])
      [seq_cell []; seq_cell [VInt 1; VInt 2]] rs
      [seq_cell []; seq_cell [VInt 2]]
      [IterNext (ExtIterator 0) (VPtr 0) [];
       IterNext (ExtIterator 0) (VPtr 1) []] /\
    event_target <$> [IterNext (ExtIterator 0) (VPtr 0) [];
                      IterNext (ExtIterator 0) (VPtr 1) []]
      = combine [ExtIterator 0; ExtIterator 0] [VPtr 0; VPtr 1] /\
    length [IterNext (ExtIterator 0) (VPtr 0) [];
            IterNext (ExtIterator 0) (VPtr 1) []]
      = length [ExtIterator 0; ExtIterator 0] /\
    is_valid (VUndef, false) = forallb is_valid rs /\
    (is_valid (VUndef, false) = true ->
     yielded_value (VUndef, false) = VTuple (yielded_value <$> rs)).
Proof.
  split; [reflexivity|].
  apply (proj1 (zip_calls_every_source_once
                  [ExtIterator 0; ExtIterator 0] [VPtr 0; VPtr 1]
                  [seq_cell []; seq_cell [VInt 1; VInt 2]]
                  eq_refl ltac:(discriminate))).
  reflexivity.
Defined.

(** A generator that fails between two tuple iterators of a zip, and
    under an enumerate. *)
Lemma combinators_forward_propagated_failure_witness :
  iternext (ZipType [ExtIterator 0; Generator 0; ExtIterator 0])
    (VZip [VPtr 0; VPtr 1; VPtr 2])
    [seq_cell [VInt 1]; gen_cell [(error_status, VUndef)]; seq_cell [VInt 7]]
    = Propagated error_status
        [seq_cell []; gen_cell []; seq_cell [VInt 7]]
        ([IterNext (ExtIterator 0) (VPtr 0) []]
           ++ [IterNext (Generator 0) (VPtr 1) []]) /\
  iternext (EnumerateType (Generator 0)) (VEnumerate 0 (VPtr 1))
    [CInt 4; gen_cell [(error_status, VUndef)]]
    = Propagated error_status [CInt 5; gen_cell []]
        [IterNext (Generator 0) (VPtr 1) []].
Proof.
  split.
  - apply (proj1 combinators_forward_propagated_failure
             [(VPtr 0, ExtIterator 0)]
             [seq_cell [VInt 1]; gen_cell [(error_status, VUndef)];
              seq_cell [VInt 7]]
             [(VInt 1, true)]
             [seq_cell []; gen_cell [(error_status, VUndef)];
              seq_cell [VInt 7]]
             [IterNext (ExtIterator 0) (VPtr 0) []]
             (VPtr 1) (Generator 0) error_status
             [seq_cell []; gen_cell []; seq_cell [VInt 7]] []
             [(VPtr 2, ExtIterator 0)]).
    + eapply zip_round_cons; [reflexivity|]. apply zip_round_nil.
    + reflexivity.
  - apply (proj2 combinators_forward_propagated_failure
             (Generator 0) 0%nat (VPtr 1)
             [CInt 4; gen_cell [(error_status, VUndef)]] 4 error_status
             [CInt 5; gen_cell []] []).
    + reflexivity.
    + reflexivity.
Defined.

(** Scenario B again, the zip object built by [make_zip_object]. *)
Example zip_of_two_tuples :
  drive (make_zip_object (ZipType [ExtIterator 0; ExtIterator 0])
           [ExtIterable 0; ExtIterable 0]
           [VTuple [VInt 1; VInt 2; VInt 3]; VTuple [VInt 9; VInt 8]])
    (ZipType [ExtIterator 0; ExtIterator 0]) 5 []
  = Some [Valid (VTuple [VInt 1; VInt 9]); Valid (VTuple [VInt 2; VInt 8]);
          Exhausted].
Proof. reflexivity. Qed.

(** Scenario D: a generator that yields 1, then 2, then stops. *)
Example generator_of_two_values :
  iterate 5 (Generator 0) (VPtr 0)
    [gen_cell [(ok_status, VInt 1); (ok_status, VInt 2)]]
  = [Valid (VInt 1); Valid (VInt 2); Exhausted].
Proof. reflexivity. Qed.

(** A generator that yields 1; one that stops; one that fails. *)
Lemma generator_status_mapping_witness :
  observe (iternext (Generator 0) (VPtr 0) [gen_cell [(ok_status, VInt 1)]])
    = Some (Valid (VInt 1)) /\
  observe (iternext (Generator 0) (VPtr 0) [gen_cell []]) = Some Exhausted /\
  observe (iternext (Generator 0) (VPtr 0)
             [gen_cell [(error_status, VUndef)]])
    = Some (PropagatedFailure error_status).
Proof.
  split; [|split].
  - apply (proj1 (generator_status_mapping 0 0%nat
                    [gen_cell [(ok_status, VInt 1)]]
                    [(ok_status, VInt 1)] ok_status (VInt 1) []
                    eq_refl eq_refl) eq_refl eq_refl eq_refl).
  - apply (proj1 (proj2 (generator_status_mapping 0 0%nat
                           [gen_cell []] [] stop_status VUndef []
                           eq_refl eq_refl)) eq_refl).
  - apply (proj2 (proj2 (generator_status_mapping 0 0%nat
                           [gen_cell [(error_status, VUndef)]]
                           [(error_status, VUndef)] error_status VUndef []
                           eq_refl eq_refl)) eq_refl eq_refl).
Defined.

(** A status that is a stop and an error at once. *)
Lemma generator_stop_takes_precedence_witness :
  observe (iternext (Generator 0) (VPtr 0)
             [gen_cell [(stop_status, VInt 3)]])
    = Some Exhausted /\
  forall st0 m0 tr0,
    iternext (Generator 0) (VPtr 0) [gen_cell [(stop_status, VInt 3)]]
      <> Propagated st0 m0 tr0.
Proof.
  apply (proj1 (generator_stop_takes_precedence 0 0%nat
                  [gen_cell [(stop_status, VInt 3)]]
                  [(stop_status, VInt 3)] stop_status (VInt 3) []
                  eq_refl eq_refl) eq_refl eq_refl).
Defined.

(** An enumerate whose counter holds 5, over a source that is exhausted:
    the counter is 6 afterwards. *)
Lemma enumerate_increments_before_source_witness :
  iternext (EnumerateType (ExtIterator 0)) (VEnumerate 1 (VPtr 0))
    [seq_cell []; CInt 5]
    = match call_iternext (ExtIterator 0) (VPtr 0) [seq_cell []; CInt 6] with
      | Normal srcres m' tr =>
          Normal (if is_valid srcres
                  then (VTuple [VInt 5; yielded_value srcres], true)
                  else (VUndef, false)) m' tr
      | Propagated st m' tr => Propagated st m' tr
      | Fault f => Fault f
      end /\
  forall m',
    final_mem (iternext (EnumerateType (ExtIterator 0)) (VEnumerate 1 (VPtr 0))
                 [seq_cell []; CInt 5]) = Some m' ->
    m' !! 1%nat = Some (CInt 6).
Proof.
  pose proof (enumerate_increments_before_source (ExtIterator 0) 1%nat
                (VPtr 0) [seq_cell []; CInt 5] 5 eq_refl)
    as (_ & _ & Hstep & Hafter).
  split; [exact Hstep|]. apply Hafter.
  intros Hin. apply list_elem_of_singleton in Hin. discriminate.
Defined.

(** [getiter] on a tuple iterator. *)
Lemma getiter_of_iterator_is_identity_witness :
  iterator_getiter [VPtr 0] [seq_cell [VInt 1]]
    = Normal (VPtr 0) [seq_cell [VInt 1]] [] /\
  call_getiter (ExtIterator 0) (VPtr 0) [seq_cell [VInt 1]]
    = Normal (VPtr 0) [seq_cell [VInt 1]] [] /\
  forall it' m' tr fuel,
    call_getiter (ExtIterator 0) (VPtr 0) [seq_cell [VInt 1]]
      = Normal it' m' tr ->
    iterate fuel (ExtIterator 0) it' m'
      = iterate fuel (ExtIterator 0) (VPtr 0) [seq_cell [VInt 1]].
Proof.
  apply (getiter_of_iterator_is_identity (ExtIterator 0) (VPtr 0)
           [seq_cell [VInt 1]]).
  reflexivity.
Defined.

(** Tuple iterators keep reporting exhaustion. *)
Lemma seq_iterator_sticky k p : sticky (ExtIterator k) (VPtr p).
Proof.
  intros m r m' tr Hrun Hv.
  destruct (m !! p) as [c|] eqn:Hp.
  2:{ simpl in Hrun. unfold iternext_impl, iternext_ext, bind, load in Hrun.
      by rewrite Hp in Hrun. }
  destruct c as [z|s|s];
    try (simpl in Hrun; unfold iternext_impl, iternext_ext, bind, load in Hrun;
         rewrite Hp in Hrun; simpl in Hrun; discriminate).
  destruct s as [|x rest].
  - rewrite (@iternext_ext_step seq_context k p m [] (VUndef, false) [] Hp eq_refl)
      in Hrun.
    injection Hrun as <- <- <-.
    exists (VUndef, false), (<[p:=seq_cell []]> (<[p:=seq_cell []]> m)), [].
    split; [|done].
    apply (@iternext_ext_step seq_context k p _ [] (VUndef, false) []); [|done].
    apply list_lookup_insert_eq. by eapply lookup_lt_Some.
  - rewrite (@iternext_ext_step seq_context k p m (x :: rest) (x, true) rest
               Hp eq_refl)
      in Hrun.
    injection Hrun as <- <- <-. done.
Qed.

Local Ltac ext_yields_steps :=
  repeat (eapply ext_yields_cons; [reflexivity|reflexivity|reflexivity|]);
  eapply ext_yields_nil; reflexivity.

(** A failure under a zip is an error that is not a stop. *)
Lemma propagated_failure_is_an_error_witness :
  is_error error_status = true /\ is_stop_iteration error_status = false.
Proof.
  apply (propagated_failure_is_an_error
           (ZipType [ExtIterator 0; Generator 0; ExtIterator 0])
           (VZip [VPtr 0; VPtr 1; VPtr 2])
           [seq_cell [VInt 1]; gen_cell [(error_status, VUndef)];
            seq_cell [VInt 7]]
           error_status
           [seq_cell []; gen_cell []; seq_cell [VInt 7]]
           [IterNext (ExtIterator 0) (VPtr 0) [];
            IterNext (Generator 0) (VPtr 1) []]).
  reflexivity.
Defined.

(** [zip((1, 2), (9,))] gets two new iterators. *)
Lemma make_zip_object_collects_iterators_witness :
  make_zip_object (ZipType [ExtIterator 0; ExtIterator 0])
    [ExtIterable 0; ExtIterable 0]
    [VTuple [VInt 1; VInt 2]; VTuple [VInt 9]] []
    = Normal (VZip [VPtr 0; VPtr 1])
        [seq_cell [VInt 1; VInt 2]; seq_cell [VInt 9]] [].
Proof.
  assert (Hseq : getiter_seq
                   (combine [VTuple [VInt 1; VInt 2]; VTuple [VInt 9]]
                            [ExtIterable 0; ExtIterable 0])
                   [] [VPtr 0; VPtr 1]
                   [seq_cell [VInt 1; VInt 2]; seq_cell [VInt 9]]
                   ([] ++ ([] ++ []))).
  { simpl combine.
    eapply getiter_seq_cons; [reflexivity|].
    eapply getiter_seq_cons; [reflexivity|].
    apply getiter_seq_nil. }
  apply (proj2 (make_zip_object_collects_iterators
                  [ExtIterator 0; ExtIterator 0]
                  [ExtIterable 0; ExtIterable 0]
                  [VTuple [VInt 1; VInt 2]; VTuple [VInt 9]] []
                  [VPtr 0; VPtr 1]
                  [seq_cell [VInt 1; VInt 2]; seq_cell [VInt 9]]
                  ([] ++ ([] ++ [])) eq_refl Hseq)).
  reflexivity.
Defined.

(** A zip over a tuple iterator and a generator shares both. *)
Lemma make_zip_object_of_iterators_witness :
  make_zip_object (ZipType [ExtIterator 0; Generator 0])
    [ExtIterator 0; Generator 0] [VPtr 0; VPtr 1]
    [seq_cell [VInt 1]; gen_cell []]
    = Normal (VZip [VPtr 0; VPtr 1]) [seq_cell [VInt 1]; gen_cell []] [] /\
  footprint (ZipType [ExtIterator 0; Generator 0]) (VZip [VPtr 0; VPtr 1])
    = mjoin (zip_with footprint [ExtIterator 0; Generator 0] [VPtr 0; VPtr 1]).
Proof.
  apply (make_zip_object_of_iterators [ExtIterator 0; Generator 0]
           [VPtr 0; VPtr 1] [seq_cell [VInt 1]; gen_cell []]).
  - repeat constructor.
  - reflexivity.
Defined.

(** Scenario D through the resume function. *)
Lemma generator_yields_its_values_witness :
  iterate 3 (Generator 0) (VPtr 0)
    [gen_cell [(ok_status, VInt 1); (ok_status, VInt 2)]]
  = (Valid <$> [VInt 1; VInt 2]) ++ [Exhausted].
Proof.
  apply (@generator_yields_its_values seq_context 0
           [(ok_status, VInt 1); (ok_status, VInt 2)] [VInt 1; VInt 2]
           [gen_cell [(ok_status, VInt 1); (ok_status, VInt 2)]] 0%nat 3).
  - reflexivity.
  - eapply gen_yields_cons; [reflexivity..|].
    eapply gen_yields_cons; [reflexivity..|].
    eapply gen_yields_nil; reflexivity.
  - simpl. lia.
Defined.

(** Scenario B from the iterables. *)
Lemma zip_of_iterables_witness :
  let inputs := [(0%nat, VTuple [VInt 1; VInt 2; VInt 3],
                  [VInt 1; VInt 2; VInt 3]);
                 (0%nat, VTuple [VInt 9; VInt 8], [VInt 9; VInt 8])] in
  let zip_type := ZipType ((fun x => ExtIterator x.1.1) <$> inputs) in
  let build :=
    make_zip_object zip_type ((fun x => ExtIterable x.1.1) <$> inputs)
      ((fun x => x.1.2) <$> inputs) in
  build [] = Normal (VZip (src_iter <$> fresh_sources 0 inputs))
               ([] ++ (seq_cell <$> [[VInt 1; VInt 2; VInt 3];
                                     [VInt 9; VInt 8]]))
               [] /\
  drive build zip_type 3 []
    = Some ((Valid <$> zipped (inputs.*2)) ++ [Exhausted]).
Proof.
  intros inputs.
  apply (@zip_of_iterables seq_context inputs
           [[VInt 1; VInt 2; VInt 3]; [VInt 9; VInt 8]] [] 3).
  - discriminate.
  - repeat constructor; simpl; ext_yields_steps.
  - simpl. lia.
Defined.

Local Ltac separate_two :=
  repeat split;
  [ intros l Hl; apply list_elem_of_singleton in Hl; subst l;
    repeat constructor; intros Hl; apply list_elem_of_singleton in Hl;
    discriminate
  | intros l Hl; constructor ].

(** [enumerate(zip([1, 2, 3], [9, 8]), 5)]. *)
Lemma enumerate_of_zip_witness :
  let srcs := [(VPtr 0, ExtIterator 0, [VInt 1; VInt 2; VInt 3]);
               (VPtr 1, ExtIterator 0, [VInt 9; VInt 8])] in
  let m := [seq_cell [VInt 1; VInt 2; VInt 3]; seq_cell [VInt 9; VInt 8]] in
  let zip_type := ZipType (src_type <$> srcs) in
  let zipobj := VZip (src_iter <$> srcs) in
  make_enumerate_object [zip_type; Integer 64 true] [zipobj; VInt 5] m
    = Normal (VEnumerate (length m) zipobj) (m ++ [CInt (intp_wrap 5)]) [] /\
  iterate 3 (EnumerateType zip_type) (VEnumerate (length m) zipobj)
    (m ++ [CInt (intp_wrap 5)])
    = (Valid <$> enumerated_intp 5 (zipped (src_items <$> srcs)))
      ++ [Exhausted].
Proof.
  intros srcs m.
  apply (enumerate_of_zip srcs m 64 true 5 3).
  - discriminate.
  - separate_two.
  - repeat constructor; unfold src_type, src_iter, src_items; simpl;
      yields_steps.
  - simpl. lia.
Defined.

(** [zip([9, 8], [1, 2, 3, 4])]: the longer source, though second, is
    left with [4] only. *)
Lemma zip_consumes_one_past_the_shortest_witness :
  let srcs := [(VPtr 0, ExtIterator 0, [VInt 9; VInt 8]);
               (VPtr 1, ExtIterator 0, [VInt 1; VInt 2; VInt 3; VInt 4])] in
  let m := [seq_cell [VInt 9; VInt 8];
            seq_cell [VInt 1; VInt 2; VInt 3; VInt 4]] in
  let run := drain 3 (ZipType (src_type <$> srcs)) (VZip (src_iter <$> srcs)) m in
  run.1 = (Valid <$> zipped (src_items <$> srcs)) ++ [Exhausted] /\
  Forall (fun s =>
            (min_len (src_items <$> srcs) < length (src_items s))%nat ->
            yields (src_type s) (src_iter s)
              (drop (S (min_len (src_items <$> srcs))) (src_items s)) run.2)
         srcs.
Proof.
  intros srcs m.
  apply (zip_consumes_one_past_the_shortest srcs m 3).
  - discriminate.
  - separate_two.
  - repeat constructor; unfold src_type, src_iter, src_items; simpl;
      yields_steps.
  - simpl. lia.
Defined.

(** Scenario A: the counter ends at 5 + 3 + 1. *)
Lemma enumerate_counter_after_exhaustion_witness :
  make_enumerate_object [ExtIterable 0; Integer 64 true]
    [VTuple [VInt 10; VInt 20; VInt 30]; VInt 5] []
    = Normal (VEnumerate 1 (VPtr 0))
        ([seq_cell [VInt 10; VInt 20; VInt 30]] ++ [CInt (intp_wrap 5)]) [] /\
  (drain 4 (EnumerateType (ExtIterator 0)) (VEnumerate 1 (VPtr 0))
     ([seq_cell [VInt 10; VInt 20; VInt 30]] ++ [CInt (intp_wrap 5)])).2
    !! 1%nat
    = Some (CInt (intp_wrap (5 + Z.of_nat 3 + 1))).
Proof.
  apply (enumerate_counter_after_exhaustion (ExtIterable 0)
           (VTuple [VInt 10; VInt 20; VInt 30]) 64 true 5
           [VInt 10; VInt 20; VInt 30] []
           [seq_cell [VInt 10; VInt 20; VInt 30]] (VPtr 0) [] 4).
  - reflexivity.
  - yields_steps.
  - simpl. lia.
Defined.

(** [zip(it, it)] over an iterator of [1, 2, 3]: one pair, 3 is lost. *)
Lemma zip_of_one_iterator_twice_witness :
  make_zip_object (ZipType [ExtIterator 0; ExtIterator 0])
    [ExtIterator 0; ExtIterator 0] [VPtr 0; VPtr 0]
    [seq_cell [VInt 1; VInt 2; VInt 3]]
    = Normal (VZip [VPtr 0; VPtr 0]) [seq_cell [VInt 1; VInt 2; VInt 3]] [] /\
  iterate 2 (ZipType [ExtIterator 0; ExtIterator 0]) (VZip [VPtr 0; VPtr 0])
    [seq_cell [VInt 1; VInt 2; VInt 3]]
    = (Valid <$> pair_up [VInt 1; VInt 2; VInt 3]) ++ [Exhausted].
Proof.
  apply (zip_of_one_iterator_twice (ExtIterator 0) (VPtr 0)
           [VInt 1; VInt 2; VInt 3] [seq_cell [VInt 1; VInt 2; VInt 3]] 2).
  - yields_steps.
  - apply seq_iterator_sticky.
  - simpl. lia.
Defined.

(** [enumerate(gen, 5)] over a generator that yields 1 and then fails. *)
Lemma enumerate_of_failing_source_witness :
  iterate 2 (EnumerateType (Generator 0)) (VEnumerate 1 (VPtr 0))
    [gen_cell [(ok_status, VInt 1); (error_status, VUndef)]; CInt 5]
  = (Valid <$> enumerated_intp 5 [VInt 1]) ++ [PropagatedFailure error_status].
Proof.
  apply (enumerate_of_failing_source (Generator 0) (VPtr 0) [VInt 1]
           error_status
           [gen_cell [(ok_status, VInt 1); (error_status, VUndef)]; CInt 5]
           1%nat 5 2).
  - eapply fails_after_cons; [reflexivity..|].
    eapply fails_after_nil. reflexivity.
  - intros Hin. apply list_elem_of_singleton in Hin. discriminate.
  - reflexivity.
  - simpl. lia.
Defined.

End Instances.

(** * Properties of the cuRAND generators *)

Section CurandProperties.
Import Curand.
Variable float : Type.
Variable auto_device : ndarray -> Z -> ndarray * bool.

Local Abbreviation uniform := (Curand.uniform float auto_device).
Local Abbreviation normal := (Curand.normal float auto_device).
Local Abbreviation lognormal := (Curand.lognormal float auto_device).
Local Abbreviation poisson := (Curand.poisson float auto_device).
Local Abbreviation generate := (Curand.generate float auto_device).
Local Abbreviation on_device := (Curand.on_device float auto_device).
Local Abbreviation rng := (Curand.rng float).

Lemma require_array_rejects ary :
  ndim ary <> 1%nat \/ strides ary !! 0%nat <> Some (itemsize ary) ->
  exists e, _require_array ary = Raise e.
Proof.
  intros H. unfold _require_array.
  destruct (ndim ary =? 1)%nat eqn:Hn; simpl; [|eauto].
  apply Nat.eqb_eq in Hn. destruct H as [H|H]; [done|].
  destruct (strides ary !! 0%nat) as [stride0|]; [|eauto].
  destruct (stride0 =? itemsize ary) eqn:Hs; simpl; [|eauto].
  apply Z.eqb_eq in Hs. congruence.
Qed.

(** An array that is not one-dimensional with unit stride is refused by
    every generating method before anything is done: the method raises,
    nothing is asked of [_auto_device] or of the generator, and the
    object is as before. *)
Theorem refused_array_has_no_effect ary :
  ndim ary <> 1%nat \/ strides ary !! 0%nat <> Some (itemsize ary) ->
  exists e,
    _require_array ary = Raise e /\
    forall (self : rng) size_arg mean sigma lmbd,
      uniform ary size_arg self = (Raise e, self) /\
      normal ary mean sigma size_arg self = (Raise e, self) /\
      lognormal ary mean sigma size_arg self = (Raise e, self) /\
      poisson ary lmbd size_arg self = (Raise e, self) /\
      generate ary size_arg self = (Raise e, self).
Proof.
  intros H. destruct (require_array_rejects ary H) as [e He].
  exists e. split; [done|]. intros self size_arg mean sigma lmbd.
  unfold Curand.uniform, Curand.normal, Curand.lognormal, Curand.poisson,
    Curand.generate.
  by rewrite He.
Qed.

(** A [size] of 0 is taken as no [size] at all ([size or ary.size]):
    every generating method called with [size=0] does what it does when
    called without [size], that is, it asks for [ary.size] numbers. *)
Theorem size_zero_means_whole_array ary (self : rng) mean sigma lmbd :
  size_or (Some 0) (size ary) = size ary /\
  uniform ary (Some 0) self = uniform ary None self /\
  normal ary mean sigma (Some 0) self = normal ary mean sigma None self /\
  lognormal ary mean sigma (Some 0) self
    = lognormal ary mean sigma None self /\
  poisson ary lmbd (Some 0) self = poisson ary lmbd None self /\
  generate ary (Some 0) self = generate ary None self.
Proof. repeat split. Qed.

Lemma on_device_effects gen ary (self : rng) dary conv :
  auto_device ary (stream_get float self) = (dary, conv) ->
  on_device gen ary self =
    (Ok tt,
     Rng float (rndtype_attr float self) (stream_attr float self)
       (offset_attr float self) (seed_attr float self) (ndim_attr float self)
       (effects float self
          ++ [AutoDevice float ary (stream_get float self); gen dary]
          ++ (if conv then [ToHost float dary (stream_get float self)]
              else []))).
Proof.
  intros Hdev. unfold Curand.on_device. rewrite Hdev.
  destruct conv; unfold call_gen, stream_get; simpl;
    by rewrite <- !app_assoc.
Qed.

Lemma on_device_config gen ary (self : rng) :
  config float (on_device gen ary self).2 = config float self /\
  effects float self `prefix_of` effects float (on_device gen ary self).2.
Proof.
  destruct (auto_device ary (stream_get float self)) as [dary conv] eqn:Hdev.
  rewrite (on_device_effects gen ary self dary conv Hdev). simpl.
  split; [done|]. by eexists.
Qed.

(** No generating method changes the configuration of the generator
    (type, stream, offset, seed, dimensions), whatever the array and
    whether or not it raises; and what was asked of the binding before
    stays on record, new requests come after. *)
Theorem generation_keeps_configuration
    ary (self : rng) size_arg mean sigma lmbd :
  let keeps (run : result unit * rng) :=
    config float run.2 = config float self /\
    effects float self `prefix_of` effects float run.2 in
  keeps (uniform ary size_arg self) /\
  keeps (normal ary mean sigma size_arg self) /\
  keeps (lognormal ary mean sigma size_arg self) /\
  keeps (poisson ary lmbd size_arg self) /\
  keeps (generate ary size_arg self).
Proof.
  intros keeps. unfold keeps, Curand.uniform, Curand.normal,
    Curand.lognormal, Curand.poisson, Curand.generate.
  destruct (_require_array ary); simpl;
    repeat split; try done; apply on_device_config.
Qed.

(** On an accepted array, after the stream of the object is set to
    [s], a generating method asks, in this order: the binding to use
    [s], [_auto_device] for the array on stream [s], the generator for
    [size or ary.size] numbers into the device array, and, only when
    [_auto_device] made a copy, the copy back to the host on stream
    [s]. *)
Theorem generation_uses_the_stream_set ary (self : rng) size_arg s dary conv :
  _require_array ary = Ok tt ->
  auto_device ary s = (dary, conv) ->
  let n := size_or size_arg (size ary) in
  let asked gen :=
    effects float self
      ++ [SetStream float s; AutoDevice float ary s; gen]
      ++ (if conv then [ToHost float dary s] else []) in
  (uniform ary size_arg (stream_set float s self)).1 = Ok tt /\
  effects float (uniform ary size_arg (stream_set float s self)).2
    = asked (GenerateUniform float dary n) /\
  (generate ary size_arg (stream_set float s self)).1 = Ok tt /\
  effects float (generate ary size_arg (stream_set float s self)).2
    = asked (Generate float dary n).
Proof.
  intros Hok Hdev n asked.
  unfold Curand.uniform, Curand.generate. rewrite Hok.
  rewrite !(on_device_effects _ ary (stream_set float s self) dary conv Hdev).
  unfold asked. simpl. rewrite <- !app_assoc. simpl. done.
Qed.

(** The offset read back is the last one set; setting the seed, the
    stream or the dimensions leaves it alone; and read before it was
    ever set, on an object made without [offset], it raises
    AttributeError, while the stream of such an object reads 0. *)
Theorem offset_reads_back_what_was_set (self : rng) o v rndtype seed stream :
  offset_get float (offset_set float o self) = Ok o /\
  offset_get float (seed_set float v self) = offset_get float self /\
  offset_get float (stream_set float v self) = offset_get float self /\
  offset_get float (ndim_set float v self) = offset_get float self /\
  offset_get float (PRNG_init float rndtype seed (Some o) stream) = Ok o /\
  offset_get float (PRNG_init float rndtype seed None stream)
    = Raise (AttributeError "_RNG__offset") /\
  stream_get float (PRNG_init float rndtype seed None None) = 0.
Proof.
  repeat split; try done.
  - by destruct seed, stream.
  - by destruct seed, stream.
  - by destruct seed.
Qed.

(** The constructors pass to the binding exactly the options given, in
    the order seed (or dimensions), offset, stream, after creating the
    generator; an option given as 0 is passed like any other. *)
Theorem constructors_apply_the_options_given rndtype first offset stream :
  let options set_first :=
    NewGenerator float rndtype
      :: option_list (set_first <$> first)
      ++ option_list (SetOffset float <$> offset)
      ++ option_list (SetStream float <$> stream) in
  effects float (PRNG_init float rndtype first offset stream)
    = options (SetSeed float) /\
  effects float (QRNG_init float rndtype first offset stream)
    = options (SetDimensions float) /\
  config float (PRNG_init float rndtype first offset stream)
    = (Some rndtype, default 0 stream, offset, first, None) /\
  config float (QRNG_init float rndtype first offset stream)
    = (Some rndtype, default 0 stream, offset, None, first).
Proof.
  intros options. by destruct first, offset, stream.
Qed.

End CurandProperties.

(** ** The cuRAND properties on concrete arrays *)

Section CurandInstances.
Import Curand.

(** A two-dimensional array is refused. *)
Lemma refused_array_has_no_effect_witness :
  let ary := Ndarray 2 [80; 8] 8 100 0 in
  exists e,
    _require_array ary = Raise e /\
    forall (self : rng Z) size_arg mean sigma lmbd,
      uniform Z (fun a _ => (a, true)) ary size_arg self = (Raise e, self) /\
      normal Z (fun a _ => (a, true)) ary mean sigma size_arg self
        = (Raise e, self) /\
      lognormal Z (fun a _ => (a, true)) ary mean sigma size_arg self
        = (Raise e, self) /\
      poisson Z (fun a _ => (a, true)) ary lmbd size_arg self
        = (Raise e, self) /\
      generate Z (fun a _ => (a, true)) ary size_arg self = (Raise e, self).
Proof.
  intros ary.
  apply (refused_array_has_no_effect Z (fun a _ => (a, true)) ary).
  left. discriminate.
Defined.

(** A host array of ten doubles, stream 7, no [size]. *)
Lemma generation_uses_the_stream_set_witness :
  let ary := Ndarray 1 [8] 8 10 0 in
  let self := PRNG_init Z 100 (Some 42) None None in
  let asked gen :=
    effects Z self
      ++ [SetStream Z 7; AutoDevice Z ary 7; gen]
      ++ [ToHost Z ary 7] in
  (uniform Z (fun a _ => (a, true)) ary None (stream_set Z 7 self)).1 = Ok tt /\
  effects Z (uniform Z (fun a _ => (a, true)) ary None (stream_set Z 7 self)).2
    = asked (GenerateUniform Z ary 10) /\
  (generate Z (fun a _ => (a, true)) ary None (stream_set Z 7 self)).1 = Ok tt /\
  effects Z (generate Z (fun a _ => (a, true)) ary None (stream_set Z 7 self)).2
    = asked (Generate Z ary 10).
Proof.
  intros ary self.
  apply (generation_uses_the_stream_set Z (fun a _ => (a, true)) ary self
           None 7 ary true); reflexivity.
Defined.

End CurandInstances.
